(** * The translator page controller (static/css/js/script.js)

    A shallow embedding of the browser-side controller: the page state the
    script reads and writes, its handlers as programs of a small monad with
    exceptions and suspension at [await], the timers of [setTimeout], and the
    event loop that interleaves them. *)

From Stdlib Require Import String Ascii.
From Stdlib Require Import List NArith Arith Bool Lia.
From Stdlib Require DecimalString.
Import ListNotations.
Open Scope list_scope.

Set Implicit Arguments.

(** ** JavaScript strings

    A JavaScript string is a sequence of UTF-16 code units; [.length] counts
    code units. *)

Definition jsstring := list N.

Fixpoint lit (s : string) : jsstring :=
  match s with
  | EmptyString => []
  | String c r => N_of_ascii c :: lit r
  end.

(** The double quote, a line feed, and runs of spaces: the template literals
    of the script span several lines. *)
Definition dq : jsstring := [34%N].
Definition nl : jsstring := [10%N].
Definition sp (n : nat) : jsstring := repeat 32%N n.
Definition quoted (s : string) : jsstring := dq ++ lit s ++ dq.

Definition jslength (s : jsstring) : N := N.of_nat (length s).

Definition code_eqb (a b : N) : bool := N.eqb a b.

Fixpoint jsstring_eqb (a b : jsstring) : bool :=
  match a, b with
  | [], [] => true
  | x :: a', y :: b' => code_eqb x y && jsstring_eqb a' b'
  | _, _ => false
  end.

(** ECMAScript WhiteSpace and LineTerminator code points, which
    [String.prototype.trim] strips from both ends. *)
Definition is_js_space (c : N) : bool :=
  ((9 <=? c) && (c <=? 13) || (c =? 32) || (c =? 160) || (c =? 5760)
   || (8192 <=? c) && (c <=? 8202) || (c =? 8232) || (c =? 8233)
   || (c =? 8239) || (c =? 8287) || (c =? 12288) || (c =? 65279))%N.

Fixpoint trimStart (s : jsstring) : jsstring :=
  match s with
  | c :: r => if is_js_space c then trimStart r else s
  | [] => []
  end.

Definition trimEnd (s : jsstring) : jsstring := rev (trimStart (rev s)).

Definition trim (s : jsstring) : jsstring := trimEnd (trimStart s).

(** [s.split(sep)[0]] for a one-unit separator: the part before its first
    occurrence, the whole string when there is none. *)
Fixpoint split_first (sep : N) (s : jsstring) : jsstring :=
  match s with
  | [] => []
  | c :: r => if code_eqb c sep then [] else c :: split_first sep r
  end.

(** Number-to-string of a non-negative integer ([.length], [Date.now()]). *)
Definition decimal (n : N) : jsstring :=
  lit (DecimalString.NilZero.string_of_uint (N.to_uint n)).

(** The less-than sign opens every tag, comment and declaration of HTML: to
    the parser a text without it is text and nothing else. *)
Definition markup_free (s : jsstring) : bool := negb (existsb (N.eqb 60) s).

(** The value a text area gives back: each CR LF pair and each other CR of
    what was assigned to it reads as one LF. *)
Fixpoint normalize_newlines (s : jsstring) : jsstring :=
  match s with
  | [] => []
  | c :: r =>
      if (c =? 13)%N then
        match r with
        | d :: r' =>
            if (d =? 10)%N then 10%N :: normalize_newlines r'
            else 10%N :: normalize_newlines r
        | [] => [10%N]
        end
      else c :: normalize_newlines r
  end.

(** ** JavaScript values

    The values the script handles: what [JSON.parse] yields for the
    responses of the three endpoints (null, booleans, strings, objects) and
    [undefined] for an absent property.  JSON numbers and arrays are not part
    of the endpoints' contract and are left out. *)

Inductive JsValue : Type :=
| JUndefined
| JNull
| JBool (b : bool)
| JStr (s : jsstring)
| JObj (fields : list (jsstring * JsValue)).

(** ToBoolean. *)
Definition truthy (v : JsValue) : bool :=
  match v with
  | JUndefined | JNull => false
  | JBool b => b
  | JStr s => match s with [] => false | _ => true end
  | JObj _ => true
  end.

(** ToString, as a template literal or a DOMString attribute applies it. *)
Definition ToString (v : JsValue) : jsstring :=
  match v with
  | JUndefined => lit "undefined"
  | JNull => lit "null"
  | JBool true => lit "true"
  | JBool false => lit "false"
  | JStr s => s
  | JObj _ => lit "[object Object]"
  end.

(** Conversion for a nullable DOMString attribute such as [textContent]:
    null and undefined give the empty string. *)
Definition to_text (v : JsValue) : jsstring :=
  match v with
  | JUndefined | JNull => []
  | _ => ToString v
  end.

Fixpoint lookup_field (k : jsstring) (fs : list (jsstring * JsValue)) : JsValue :=
  match fs with
  | [] => JUndefined
  | (k', v) :: r => if jsstring_eqb k k' then v else lookup_field k r
  end.

(** [a || b]. *)
Definition js_or (a b : JsValue) : JsValue := if truthy a then a else b.

(** Error objects: everything the handlers throw or catch is one. *)
Record JsError := mkError { err_name : jsstring; message : jsstring }.

Definition new_Error (m : JsValue) : JsError := mkError (lit "Error") (ToString m).

(** [v.k]: a primitive has none of the properties the script reads; on
    the right, [v] is null or undefined and the read throws a TypeError,
    whose wording is the engine's (see [null_read]). *)
Definition get_prop (v : JsValue) (k : string) : JsValue + unit :=
  match v with
  | JUndefined | JNull => inr tt
  | JObj fs => inl (lookup_field (lit k) fs)
  | _ => inl JUndefined
  end.

(** ** The page

    The elements the script looks up by id.  The target-language dropdown is
    kept apart ([Select]); the notification elements are created and removed
    at run time ([AlertEl]). *)

Inductive Elem : Set :=
| inputText | outputText | translateBtn | detectBtn | speakBtn | copyBtn
| clearBtn | detectedLang | detectedLangCode | targetLangName | targetLangCode
| audioPlayer | audioElement | downloadAudio | charCounter | downloadBtn
| audioStatus.

Definition Elem_eq_dec (a b : Elem) : {a = b} + {a <> b}.
Proof. decide equality. Defined.

(** The properties of an element that the script reads or assigns.  Each
    element is only ever written through one of [innerHTML] and
    [textContent], so the two are kept as independent fields. *)
Record Element := mkElement {
  value : jsstring;
  innerHTML : jsstring;
  textContent : jsstring;
  disabled : bool;
  display : jsstring;       (* style.display *)
  color : jsstring;         (* style.color *)
  src : jsstring;
  href : jsstring;
  download : jsstring
}.

Definition set_value v (e : Element) : Element :=
  mkElement v (innerHTML e) (textContent e) (disabled e) (display e) (color e) (src e) (href e) (download e).
Definition set_innerHTML v (e : Element) : Element :=
  mkElement (value e) v (textContent e) (disabled e) (display e) (color e) (src e) (href e) (download e).
Definition set_textContent v (e : Element) : Element :=
  mkElement (value e) (innerHTML e) v (disabled e) (display e) (color e) (src e) (href e) (download e).
Definition set_disabled v (e : Element) : Element :=
  mkElement (value e) (innerHTML e) (textContent e) v (display e) (color e) (src e) (href e) (download e).
Definition set_display v (e : Element) : Element :=
  mkElement (value e) (innerHTML e) (textContent e) (disabled e) v (color e) (src e) (href e) (download e).
Definition set_color v (e : Element) : Element :=
  mkElement (value e) (innerHTML e) (textContent e) (disabled e) (display e) v (src e) (href e) (download e).
Definition set_src v (e : Element) : Element :=
  mkElement (value e) (innerHTML e) (textContent e) (disabled e) (display e) (color e) v (href e) (download e).
Definition set_href v (e : Element) : Element :=
  mkElement (value e) (innerHTML e) (textContent e) (disabled e) (display e) (color e) (src e) v (download e).
Definition set_download v (e : Element) : Element :=
  mkElement (value e) (innerHTML e) (textContent e) (disabled e) (display e) (color e) (src e) (href e) v.

(** The [<select>]: its options (value, text) and the selected index;
    [None] is the index -1 of a select with nothing selected. *)
Record Select := mkSelect {
  options : list (jsstring * jsstring);
  selectedIndex : option nat
}.

Definition selected_option (sel : Select) : option (jsstring * jsstring) :=
  match selectedIndex sel with
  | Some i => nth_error (options sel) i
  | None => None
  end.

(** [targetLang.value]: the value of the selected option, else the empty
    string. *)
Definition select_value (sel : Select) : jsstring :=
  match selected_option sel with
  | Some (v, _) => v
  | None => []
  end.

Fixpoint find_option (v : jsstring) (opts : list (jsstring * jsstring)) (i : nat)
  : option nat :=
  match opts with
  | [] => None
  | (v', _) :: r => if jsstring_eqb v v' then Some i else find_option v r (S i)
  end.

(** [targetLang.value = v]: selects the first option with that value, and
    none when no option has it. *)
Definition select_set_value (v : jsstring) (sel : Select) : Select :=
  mkSelect (options sel) (find_option v (options sel) 0).

(** A notification element attached to the document body. *)
Record AlertEl := mkAlert {
  alert_id : nat;
  className : jsstring;
  alert_html : jsstring;
  animation : jsstring
}.

(** The functions handed to [setTimeout]. *)
Inductive Callback : Set :=
| CbDetectLanguage                (* detectLanguage, armed by the input listener *)
| CbAutoPlay                      (* audioElement.play() after a synthesis *)
| CbCopyRevert                    (* the copy button's label back to "Copy" *)
| CbAlertDismiss (a : nat)        (* the 5000 ms auto-remove of alert [a] *)
| CbAlertRemove (a : nat).        (* alert.remove() after the exit animation *)

Record Timer := mkTimer { timer_id : nat; due : N; callback : Callback }.

(** What leaves the page. *)
Inductive Effect : Type :=
| Fetched (url : jsstring) (body : JsValue)
| ClipboardWrite (v : JsValue)
| ConsoleError (label : jsstring) (e : JsError)
| ConsoleLog (msg : jsstring)
| AudioPlay.

(** What the script leaves to the browser and cannot be read off the
    script itself: how the HTML parser reads a text that has markup in it,
    and the wording of the engine's errors. *)
Record Browser := mkBrowser {
  (* [alert.querySelector('.alert-close')] finds an element once
     [alert.innerHTML] holds the template of showAlert around this message *)
  close_button_of : jsstring -> bool;
  (* [document.getElementById(id)] is the page's own element while the
     output area holds this markup *)
  own_element_by_id : jsstring -> jsstring -> bool;
  (* the message of the TypeError for reading this property of null or of
     undefined *)
  null_read_message : JsValue -> jsstring -> jsstring
}.

Record Page := mkPage {
  dom : Elem -> Element;
  targetLang : Select;
  currentTranslation : JsValue;       (* let currentTranslation = '' *)
  currentAudioUrl : JsValue;          (* let currentAudioUrl = '' *)
  detectTimeout : option nat;         (* let detectTimeout, in init *)
  alerts : list AlertEl;              (* elements of class alert, in document order *)
  timers : list Timer;                (* pending timeouts, in registration order *)
  next_timer : nat;
  next_alert : nat;
  now : N;                            (* milliseconds *)
  effects : list Effect;              (* oldest first *)
  browser : Browser
}.

Definition with_dom f (s : Page) : Page :=
  mkPage (f (dom s)) (targetLang s) (currentTranslation s) (currentAudioUrl s) (detectTimeout s)
         (alerts s) (timers s) (next_timer s) (next_alert s) (now s) (effects s) (browser s).
Definition with_targetLang f (s : Page) : Page :=
  mkPage (dom s) (f (targetLang s)) (currentTranslation s) (currentAudioUrl s) (detectTimeout s)
         (alerts s) (timers s) (next_timer s) (next_alert s) (now s) (effects s) (browser s).
Definition set_currentTranslation v (s : Page) : Page :=
  mkPage (dom s) (targetLang s) v (currentAudioUrl s) (detectTimeout s)
         (alerts s) (timers s) (next_timer s) (next_alert s) (now s) (effects s) (browser s).
Definition set_currentAudioUrl v (s : Page) : Page :=
  mkPage (dom s) (targetLang s) (currentTranslation s) v (detectTimeout s)
         (alerts s) (timers s) (next_timer s) (next_alert s) (now s) (effects s) (browser s).
Definition set_detectTimeout v (s : Page) : Page :=
  mkPage (dom s) (targetLang s) (currentTranslation s) (currentAudioUrl s) v
         (alerts s) (timers s) (next_timer s) (next_alert s) (now s) (effects s) (browser s).
Definition with_alerts f (s : Page) : Page :=
  mkPage (dom s) (targetLang s) (currentTranslation s) (currentAudioUrl s) (detectTimeout s)
         (f (alerts s)) (timers s) (next_timer s) (next_alert s) (now s) (effects s) (browser s).
Definition with_timers f (s : Page) : Page :=
  mkPage (dom s) (targetLang s) (currentTranslation s) (currentAudioUrl s) (detectTimeout s)
         (alerts s) (f (timers s)) (next_timer s) (next_alert s) (now s) (effects s) (browser s).
Definition set_next_timer v (s : Page) : Page :=
  mkPage (dom s) (targetLang s) (currentTranslation s) (currentAudioUrl s) (detectTimeout s)
         (alerts s) (timers s) v (next_alert s) (now s) (effects s) (browser s).
Definition set_next_alert v (s : Page) : Page :=
  mkPage (dom s) (targetLang s) (currentTranslation s) (currentAudioUrl s) (detectTimeout s)
         (alerts s) (timers s) (next_timer s) v (now s) (effects s) (browser s).
Definition set_now v (s : Page) : Page :=
  mkPage (dom s) (targetLang s) (currentTranslation s) (currentAudioUrl s) (detectTimeout s)
         (alerts s) (timers s) (next_timer s) (next_alert s) v (effects s) (browser s).
Definition emit (e : Effect) (s : Page) : Page :=
  mkPage (dom s) (targetLang s) (currentTranslation s) (currentAudioUrl s) (detectTimeout s)
         (alerts s) (timers s) (next_timer s) (next_alert s) (now s) (effects s ++ [e]) (browser s).

(** [el.prop = v] on one of the fixed elements. *)
Definition assign (el : Elem) (f : Element -> Element) : Page -> Page :=
  with_dom (fun d e => if Elem_eq_dec el e then f (d e) else d e).

(** [setTimeout(cb, delay)] registers a timer and returns its id;
    [clearTimeout(id)] drops it, and does nothing for [undefined] or an id
    that is no longer pending. *)
Definition setTimeout (cb : Callback) (delay : N) (s : Page) : nat * Page :=
  (next_timer s,
   set_next_timer (S (next_timer s))
     (with_timers (fun ts => ts ++ [mkTimer (next_timer s) (now s + delay) cb]) s)).

Definition clearTimeout (id : option nat) (s : Page) : Page :=
  match id with
  | None => s
  | Some i => with_timers (filter (fun t => negb (Nat.eqb (timer_id t) i))) s
  end.

(** ** Handlers as programs

    An [async] function runs until its first [await], hands control back to
    the event loop, and is resumed later with the promise's settlement and
    with the page as the handlers that ran meanwhile left it.  [Res] is what
    a handler has come to: finished (normally or by an uncaught throw), or
    suspended on a promise with its continuation. *)

Inductive Settled (X : Type) : Type :=
| Fulfilled (x : X)
| Rejected (e : JsError).
Arguments Rejected {X} e.

(** A [Response]: all the script does with it is call [json()], which
    settles to the parsed body or rejects. *)
Inductive Response : Type := mkResponse (json_body : Settled JsValue).

Definition json_body (r : Response) : Settled JsValue :=
  let 'mkResponse b := r in b.

Inductive Awaited : Type -> Type :=
| Fetch (url : jsstring) (body : JsValue) : Awaited Response
| Json (r : Response) : Awaited JsValue
| WriteText (v : JsValue) : Awaited unit
| Play : Awaited unit.

Inductive Outcome (A : Type) : Type :=
| Normal (a : A)
| Throw (e : JsError).
Arguments Throw {A} e.

Inductive Res (A : Type) : Type :=
| Done (o : Outcome A) (s : Page)
| Susp (X : Type) (p : Awaited X) (s : Page) (k : Settled X -> Page -> Res A).

Definition Async (A : Type) : Type := Page -> Res A.

Fixpoint bind_res {A B} (r : Res A) (f : A -> Async B) : Res B :=
  match r with
  | Done (Normal a) s => f a s
  | Done (Throw e) s => Done (Throw e) s
  | Susp p s k => Susp p s (fun x s' => bind_res (k x s') f)
  end.

(** [try { r } catch (error) { h error }]. *)
Fixpoint catch_res {A} (r : Res A) (h : JsError -> Async A) : Res A :=
  match r with
  | Done (Normal a) s => Done (Normal a) s
  | Done (Throw e) s => h e s
  | Susp p s k => Susp p s (fun x s' => catch_res (k x s') h)
  end.

(** [try { r } finally { c }]: [c] runs however [r] completes; the
    completion of [r] stands unless [c] itself throws. *)
Fixpoint finally_res {A} (r : Res A) (c : Async unit) : Res A :=
  match r with
  | Done o s => bind_res (c s) (fun _ s' => Done o s')
  | Susp p s k => Susp p s (fun x s' => finally_res (k x s') c)
  end.

Definition ret {A} (a : A) : Async A := fun s => Done (Normal a) s.
Definition bind {A B} (m : Async A) (f : A -> Async B) : Async B :=
  fun s => bind_res (m s) f.
Definition throw {A} (e : JsError) : Async A := fun s => Done (Throw e) s.
Definition try_catch {A} (m : Async A) (h : JsError -> Async A) : Async A :=
  fun s => catch_res (m s) h.
Definition try_finally {A} (m : Async A) (c : Async unit) : Async A :=
  fun s => finally_res (m s) c.
Definition gets {A} (f : Page -> A) : Async A := fun s => Done (Normal (f s)) s.
Definition modify (f : Page -> Page) : Async unit := fun s => Done (Normal tt) (f s).

(** [await p]: suspend; on resumption a fulfilled promise gives its value
    and a rejected one throws its reason. *)
Definition await {X} (p : Awaited X) : Async X :=
  fun s => Susp p s (fun r s' =>
    match r with
    | Fulfilled x => Done (Normal x) s'
    | Rejected e => Done (Throw e) s'
    end).

Declare Scope async_scope.
Delimit Scope async_scope with async.
Notation "x <- m ;; k" := (bind m (fun x => k))
  (at level 61, m at next level, right associativity) : async_scope.
Notation "m ;; k" := (bind m (fun _ => k))
  (at level 61, right associativity) : async_scope.
Open Scope async_scope.

(** [await fetch(url, {method: 'POST', ..., body: JSON.stringify(body)})]:
    the request leaves when [fetch] is called. *)
Definition fetch (url : string) (body : JsValue) : Async Response :=
  modify (emit (Fetched (lit url) body));; await (Fetch (lit url) body).

(** The TypeError of reading property [k] of [base], null or undefined. *)
Definition null_read {A} (base : JsValue) (k : string) : Async A :=
  fun s => Done (Throw (mkError (lit "TypeError")
                          (null_read_message (browser s) base (lit k)))) s.

Definition prop (v : JsValue) (k : string) : Async JsValue :=
  match get_prop v k with
  | inl x => ret x
  | inr _ => null_read v k
  end.

Definition console_error (label : string) (e : JsError) : Async unit :=
  modify (emit (ConsoleError (lit label) e)).

(** ** The alert system *)

Definition alert_markup (msg : jsstring) : jsstring :=
  nl ++ sp 8 ++ lit "<span>" ++ msg ++ lit "</span>" ++
  nl ++ sp 8 ++ lit "<button class=" ++ quoted "alert-close" ++ lit ">&times;</button>" ++
  nl ++ sp 4.

Definition slideOut : jsstring := lit "slideOut 0.3s ease".

(** showAlert when line 292 finds the close button, as it does for every
    message without markup and so for each literal message of the script:
    the listener is attached (a click on it is the event [EAlertClose]) and
    the auto-remove timer is armed. *)
Definition showAlert (msg : jsstring) (type : string) (s : Page) : Page :=
  (* document.querySelector('.alert') is the first alert in the document *)
  let s1 := with_alerts (fun l => tl l) s in
  let a := mkAlert (next_alert s1) (lit "alert alert-" ++ lit type) (alert_markup msg) [] in
  let s2 := set_next_alert (S (next_alert s1)) (with_alerts (fun l => l ++ [a]) s1) in
  snd (setTimeout (CbAlertDismiss (alert_id a)) 5000 s2).

(** Lines 278-289 alone: the page as it is when line 292 throws.  The new
    alert is in the document; it has no listener and no timer. *)
Definition showAlert_appended (msg : jsstring) (type : string) (s : Page) : Page :=
  let s1 := with_alerts (fun l => tl l) s in
  let a := mkAlert (next_alert s1) (lit "alert alert-" ++ lit type) (alert_markup msg) [] in
  set_next_alert (S (next_alert s1)) (with_alerts (fun l => l ++ [a]) s1).

(** Line 292, [alert.querySelector('.alert-close')]: [alert.innerHTML] has
    been parsed as HTML.  Around a message without markup the template gives
    the span and the button; what a message with markup leaves of the button
    is the parser's to say. *)
Definition close_button_found (msg : jsstring) (s : Page) : bool :=
  markup_free msg || close_button_of (browser s) msg.

(** showAlert with any message, as the call sites that interpolate a text
    of the server or of the page use it: when the close button is not found,
    [null.addEventListener] throws. *)
Definition call_showAlert (msg : jsstring) (type : string) : Async unit :=
  fun s =>
    if close_button_found msg s
    then Done (Normal tt) (showAlert msg type s)
    else null_read JNull "addEventListener" (showAlert_appended msg type s).

Definition in_document (a : nat) (s : Page) : bool :=
  existsb (fun x => Nat.eqb (alert_id x) a) (alerts s).

Definition animate_out (a : nat) : Page -> Page :=
  with_alerts (map (fun x =>
    if Nat.eqb (alert_id x) a
    then mkAlert (alert_id x) (className x) (alert_html x) slideOut
    else x)).

(** The close button's listener. *)
Definition alert_close (a : nat) (s : Page) : Page :=
  snd (setTimeout (CbAlertRemove a) 300 (animate_out a s)).

(** The auto-remove callback. *)
Definition alert_dismiss (a : nat) (s : Page) : Page :=
  if in_document a s
  then snd (setTimeout (CbAlertRemove a) 300 (animate_out a s))
  else s.

Definition alert_remove (a : nat) : Page -> Page :=
  with_alerts (filter (fun x => negb (Nat.eqb (alert_id x) a))).

(** ** The script's functions *)

Definition icon (cls text : string) : jsstring :=
  lit "<i class=" ++ quoted cls ++ lit "></i>" ++ lit text.

Definition input_value (s : Page) : jsstring := value (dom s inputText).

Definition updateTargetLanguage : Async unit :=
  sel <- gets targetLang;;
  match selected_option sel with
  | None => null_read JUndefined "text"
  | Some (_, text) =>
      modify (assign targetLangName (set_textContent (trim (split_first 40 text))));;
      v <- gets (fun s => select_value (targetLang s));;
      modify (assign targetLangCode (set_textContent v))
  end.

(** [field k v]: the property as a handler sees it once it is past the
    first read, undefined where there is none. *)
Definition field (k : string) (v : JsValue) : JsValue :=
  match get_prop v k with
  | inl x => x
  | inr _ => JUndefined
  end.

(** The blocks of each [try ... catch ... finally] are named after the
    function they belong to; [_on_data] is what follows
    [const data = await response.json()]. *)

Definition detect_on_data (data : JsValue) : Async unit :=
  ok <- prop data "success";;
  if truthy ok then
    language <- prop data "language";;
    modify (assign detectedLang (set_textContent (to_text language)));;
    code <- prop data "code";;
    modify (assign detectedLangCode (set_textContent (to_text code)));;
    language' <- prop data "language";;
    call_showAlert (lit "Detected: " ++ ToString language') "success"
  else ret tt.

Definition detect_try (text : jsstring) : Async unit :=
  response <- fetch "/detect" (JObj [(lit "text", JStr text)]);;
  data <- await (Json response);;
  detect_on_data data.

Definition detect_catch (error : JsError) : Async unit :=
  console_error "Detection failed:" error;;
  modify (showAlert (lit "Language detection failed") "error").

Definition detectLanguage : Async unit :=
  text <- gets (fun s => trim (input_value s));;
  if (jslength text <? 3)%N then
    modify (assign detectedLang (set_textContent (lit "Text too short")));;
    modify (assign detectedLangCode (set_textContent (lit "--")))
  else
    try_catch (detect_try text) detect_catch.

Definition translation_markup (source_lang target_lang : JsValue) (translation : JsValue)
  : jsstring :=
  nl ++ sp 16 ++ lit "<div class=" ++ quoted "translation-result" ++ lit ">" ++
  nl ++ sp 20 ++ lit "<div class=" ++ quoted "source-info" ++ lit ">" ++
  nl ++ sp 24 ++ lit "<small>Translated from " ++ ToString source_lang ++ lit " to "
     ++ ToString target_lang ++ lit "</small>" ++
  nl ++ sp 20 ++ lit "</div>" ++
  nl ++ sp 20 ++ lit "<div class=" ++ quoted "translation-text" ++ lit ">"
     ++ ToString translation ++ lit "</div>" ++
  nl ++ sp 16 ++ lit "</div>" ++
  nl ++ sp 12.

Definition translate_busy_label : jsstring := icon "fas fa-spinner fa-spin" " Translating...".
Definition translate_idle_label : jsstring := icon "fas fa-exchange-alt" " Translate Now".

(** Line 168, [document.getElementById('downloadBtn').disabled = false],
    comes after line 150 has put the response's texts into the output area
    as markup: the element found is the page's download control when those
    texts are plain, and otherwise when the browser says so; an element the
    markup brought in is not one of [Elem]. *)
Definition enable_download (inserted : list jsstring) (s : Page) : Page :=
  if forallb markup_free inserted
     || own_element_by_id (browser s) (lit "downloadBtn") (innerHTML (dom s outputText))
  then assign downloadBtn (set_disabled false) s
  else s.

Definition translate_on_data (data : JsValue) : Async unit :=
  ok <- prop data "success";;
  if truthy ok then
    translated <- prop data "translated_text";;
    modify (set_currentTranslation translated);;
    source_lang <- prop data "source_lang";;
    target_lang <- prop data "target_lang";;
    current <- gets currentTranslation;;
    modify (assign outputText
              (set_innerHTML (translation_markup source_lang target_lang current)));;
    source_lang' <- prop data "source_lang";;
    modify (assign detectedLang (set_textContent (to_text source_lang')));;
    source_code <- prop data "source_code";;
    modify (assign detectedLangCode (set_textContent (to_text source_code)));;
    target_lang' <- prop data "target_lang";;
    modify (assign targetLangName (set_textContent (to_text target_lang')));;
    target_code <- prop data "target_code";;
    modify (assign targetLangCode (set_textContent (to_text target_code)));;
    modify (assign speakBtn (set_disabled false));;
    modify (assign copyBtn (set_disabled false));;
    modify (enable_download [ToString source_lang; ToString target_lang; ToString current]);;
    modify (assign audioPlayer (set_display (lit "none")));;
    modify (showAlert (lit "Translation successful!") "success")
  else
    err <- prop data "error";;
    throw (new_Error (js_or err (JStr (lit "Translation failed")))).

Definition translate_request (text target : jsstring) : JsValue :=
  JObj [(lit "text", JStr text); (lit "target_lang", JStr target)].

Definition translate_try (text : jsstring) : Async unit :=
  modify (assign translateBtn (set_disabled true));;
  modify (assign translateBtn (set_innerHTML translate_busy_label));;
  target <- gets (fun s => select_value (targetLang s));;
  response <- fetch "/translate" (translate_request text target);;
  data <- await (Json response);;
  translate_on_data data.

Definition translate_catch (error : JsError) : Async unit :=
  console_error "Translation error:" error;;
  call_showAlert (lit "Translation failed: " ++ message error) "error".

Definition translate_finally : Async unit :=
  modify (assign translateBtn (set_disabled false));;
  modify (assign translateBtn (set_innerHTML translate_idle_label)).

Definition translate : Async unit :=
  text <- gets (fun s => trim (input_value s));;
  match text with
  | [] => modify (showAlert (lit "Please enter text to translate") "error")
  | _ :: _ =>
    if (5000 <? jslength text)%N then
      modify (showAlert (lit "Text is too long (max 5000 characters)") "error")
    else
      try_finally (try_catch (translate_try text) translate_catch) translate_finally
  end.

Definition speak_busy_label : jsstring := icon "fas fa-spinner fa-spin" " Generating...".
Definition speak_idle_label : jsstring := icon "fas fa-volume-up" " Listen".

Definition speech_on_data (data : JsValue) : Async unit :=
  ok <- prop data "success";;
  if truthy ok then
    audio_url <- prop data "audio_url";;
    modify (set_currentAudioUrl audio_url);;
    url <- gets currentAudioUrl;;
    modify (assign audioElement (set_src (ToString url)));;
    url' <- gets currentAudioUrl;;
    modify (assign downloadAudio (set_href (ToString url')));;
    modify (assign audioPlayer (set_display (lit "flex")));;
    modify (fun s => snd (setTimeout CbAutoPlay 100 s));;
    modify (showAlert (lit "Speech generated successfully") "success")
  else
    err <- prop data "error";;
    throw (new_Error (js_or err (JStr (lit "Speech generation failed")))).

Definition speech_request (text : JsValue) (lang : jsstring) : JsValue :=
  JObj [(lit "text", text); (lit "lang", JStr lang)].

Definition speech_try : Async unit :=
  modify (assign speakBtn (set_disabled true));;
  modify (assign speakBtn (set_innerHTML speak_busy_label));;
  text <- gets currentTranslation;;
  lang <- gets (fun s => select_value (targetLang s));;
  response <- fetch "/tts" (speech_request text lang);;
  data <- await (Json response);;
  speech_on_data data.

Definition speech_catch (error : JsError) : Async unit :=
  console_error "Speech error:" error;;
  call_showAlert (lit "Speech generation failed: " ++ message error) "error".

Definition speech_finally : Async unit :=
  modify (assign speakBtn (set_disabled false));;
  modify (assign speakBtn (set_innerHTML speak_idle_label)).

Definition generateSpeech : Async unit :=
  current <- gets currentTranslation;;
  if negb (truthy current) then
    modify (showAlert (lit "No translation available") "error")
  else
    try_finally (try_catch speech_try speech_catch) speech_finally.

Definition copied_label : jsstring := icon "fas fa-check" " Copied!".
Definition copy_label : jsstring := icon "fas fa-copy" " Copy".

Definition copy_then : Async unit :=
  modify (assign copyBtn (set_innerHTML copied_label));;
  modify (showAlert (lit "Translation copied to clipboard") "success");;
  modify (fun s => snd (setTimeout CbCopyRevert 2000 s)).

Definition copy_catch (err : JsError) : Async unit :=
  console_error "Copy failed:" err;;
  modify (showAlert (lit "Failed to copy text") "error").

(** [navigator.clipboard.writeText(...).then(...).catch(...)], in a
    browser that has [navigator.clipboard]: the catch handler also receives
    what the then handler throws. *)
Definition copyTranslation : Async unit :=
  current <- gets currentTranslation;;
  if negb (truthy current) then
    modify (showAlert (lit "No translation to copy") "error")
  else
    text <- gets currentTranslation;;
    modify (emit (ClipboardWrite text));;
    try_catch (await (WriteText text);; copy_then) copy_catch.

Definition placeholder_markup : jsstring :=
  nl ++ sp 8 ++ lit "<div class=" ++ quoted "placeholder" ++ lit ">" ++
  nl ++ sp 12 ++ lit "<i class=" ++ quoted "fas fa-language" ++ lit "></i>" ++
  nl ++ sp 12 ++ lit "<h4>Translation will appear here</h4>" ++
  nl ++ sp 12 ++ lit "<p>Select target language and click Translate</p>" ++
  nl ++ sp 8 ++ lit "</div>" ++
  nl ++ sp 4.

Definition clearAll (s : Page) : Page :=
  let s := assign inputText (set_value []) s in
  let s := assign outputText (set_innerHTML placeholder_markup) s in
  let s := assign detectedLang (set_textContent (lit "Auto-Detect")) s in
  let s := assign detectedLangCode (set_textContent (lit "--")) s in
  let s := set_currentTranslation (JStr []) s in
  let s := assign speakBtn (set_disabled true) s in
  let s := assign copyBtn (set_disabled true) s in
  let s := assign audioPlayer (set_display (lit "none")) s in
  let s := assign charCounter (set_textContent (lit "0")) s in
  showAlert (lit "All fields cleared") "info" s.

(** ** The listeners registered by [init] and at top level *)

(** First input listener: the character counter. *)
Definition on_input_counter (s : Page) : Page :=
  let count := jslength (input_value s) in
  let s := assign charCounter (set_textContent (decimal count)) s in
  assign charCounter
    (set_color (if (5000 <? count)%N then lit "#ef476f" else lit "#06d6a0")) s.

(** Second input listener: the detection debounce. *)
Definition on_input_detect (s : Page) : Page :=
  let s := clearTimeout (detectTimeout s) s in
  if (3 <=? jslength (trim (input_value s)))%N then
    let (id, s') := setTimeout CbDetectLanguage 1500 s in
    set_detectTimeout (Some id) s'
  else s.

(** Dispatch of an input event: both listeners, in registration order. *)
Definition dispatch_input (s : Page) : Page :=
  on_input_detect (on_input_counter s).

(** An attribute read with [getAttribute] is a string or null. *)
Definition attr_value (a : option jsstring) : JsValue :=
  match a with
  | Some v => JStr v
  | None => JNull
  end.

Definition on_quick_lang (lang : option jsstring) : Async unit :=
  modify (with_targetLang (select_set_value (ToString (attr_value lang))));;
  updateTargetLanguage.

(** [name] is the text of the card's [.lang-name] child, when it has one. *)
Definition on_lang_card (lang : option jsstring) (name : option jsstring) : Async unit :=
  modify (with_targetLang (select_set_value (ToString (attr_value lang))));;
  updateTargetLanguage;;
  match name with
  | None => null_read JNull "textContent"
  | Some n => call_showAlert (lit "Selected " ++ n) "info"
  end.

(** The text box is a text area: the listeners of the dispatched event read
    back the assigned text with its line breaks normalized. *)
Definition on_quick_text (text : option jsstring) (s : Page) : Page :=
  let s := assign inputText
             (set_value (normalize_newlines (to_text (attr_value text)))) s in
  let s := dispatch_input s in
  showAlert (lit "Example text loaded") "info" s.

Definition on_download_click (date_now : N) (s : Page) : Page :=
  assign downloadAudio
    (set_download (lit "translation_" ++ select_value (targetLang s) ++ lit "_"
                   ++ decimal date_now ++ lit ".mp3")) s.

(** [document.getElementById('audioStatus').textContent = text], in the
    listeners of the audio element. *)
Definition set_audio_status (text : jsstring) (s : Page) : Page :=
  if own_element_by_id (browser s) (lit "audioStatus") (innerHTML (dom s outputText))
  then assign audioStatus (set_textContent text) s
  else s.

Definition auto_play : Async unit :=
  modify (emit AudioPlay);;
  try_catch (await Play) (fun _ => modify (emit (ConsoleLog (lit "Autoplay prevented")))).

Definition run_callback (cb : Callback) : Async unit :=
  match cb with
  | CbDetectLanguage => detectLanguage
  | CbAutoPlay => auto_play
  | CbCopyRevert => modify (assign copyBtn (set_innerHTML copy_label))
  | CbAlertDismiss a => modify (alert_dismiss a)
  | CbAlertRemove a => modify (alert_remove a)
  end.

(** ** The event loop

    The page together with the handlers suspended on a promise. *)

Inductive Task : Type :=
| mkTask (X : Type) (p : Awaited X) (k : Settled X -> Page -> Res unit).

Record App := mkApp { page : Page; tasks : list Task }.

(** A handler has run to its end or to an [await]; an uncaught throw ends
    it and leaves the page as it is. *)
Definition absorb (r : Res unit) (ts : list Task) : App :=
  match r with
  | Done _ s => mkApp s ts
  | Susp p s k => mkApp s (ts ++ [mkTask p k])
  end.

Definition launch (m : Async unit) (a : App) : App :=
  absorb (m (page a)) (tasks a).

(** What the user and the audio element can do to the page. *)
Inductive Event : Type :=
| EInput (text : jsstring)            (* the user edits the text box, which then reads [text] *)
| ECtrlEnter                          (* keydown with ctrlKey and key Enter *)
| EClick (b : Elem)                   (* a click on one of the buttons *)
| EQuickLang (lang : option jsstring)
| ELangCard (lang name : option jsstring)
| EQuickText (text : option jsstring)
| ESelectTarget (i : nat)             (* the user picks option [i] of the dropdown *)
| EAlertClose (a : nat)               (* a click on the close button of alert [a] *)
| EDownloadClick (date_now : N)
| EAudioPlay
| EAudioEnded.

Definition on_click (b : Elem) : Async unit :=
  match b with
  | translateBtn => translate
  | detectBtn => detectLanguage
  | speakBtn => generateSpeech
  | copyBtn => copyTranslation
  | clearBtn => modify clearAll
  | _ => ret tt
  end.

Definition handle (e : Event) (a : App) : App :=
  match e with
  | EInput text =>
      launch (modify (fun s => dispatch_input (assign inputText (set_value text) s))) a
  | ECtrlEnter => launch translate a
  | EClick b =>
      (* a disabled button does not receive clicks *)
      if disabled (dom (page a) b) then a else launch (on_click b) a
  | EQuickLang lang => launch (on_quick_lang lang) a
  | ELangCard lang name => launch (on_lang_card lang name) a
  | EQuickText text => launch (modify (on_quick_text text)) a
  | ESelectTarget i =>
      if (i <? length (options (targetLang (page a))))%nat then
        launch (modify (with_targetLang (fun sel => mkSelect (options sel) (Some i)));;
                updateTargetLanguage) a
      else a
  | EAlertClose x =>
      if in_document x (page a) then launch (modify (alert_close x)) a else a
  | EDownloadClick t => launch (modify (on_download_click t)) a
  | EAudioPlay => launch (modify (set_audio_status (lit "Playing..."))) a
  | EAudioEnded => launch (modify (set_audio_status (lit "Playback finished"))) a
  end.

(** One millisecond passes, and the timers that have come due fire in
    registration order; a timer cleared by an earlier callback of the same
    turn no longer fires. *)
Definition pending (id : nat) (s : Page) : bool :=
  existsb (fun t => Nat.eqb (timer_id t) id) (timers s).

Definition fire (a : App) (t : Timer) : App :=
  if pending (timer_id t) (page a)
  then launch (modify (clearTimeout (Some (timer_id t)));; run_callback (callback t)) a
  else a.

Definition tick (a : App) : App :=
  let s := set_now (now (page a) + 1) (page a) in
  fold_left fire (filter (fun t => (due t <=? now s)%N) (timers s)) (mkApp s (tasks a)).

Definition wait (ms : N) (a : App) : App := N.iter ms tick a.

(** How a promise may settle: a response's [json()] gives the response's
    body; the network, the clipboard and the audio element answer as they
    please. *)
Definition may_settle {X} (p : Awaited X) : Settled X -> Prop :=
  match p with
  | Json resp => fun r => r = json_body resp
  | _ => fun _ => True
  end.

Inductive step : App -> App -> Prop :=
| step_event e a : step a (handle e a)
| step_tick a : step a (tick a)
| step_settle s before X (p : Awaited X) k after r :
    may_settle p r ->
    step (mkApp s (before ++ mkTask p k :: after))
         (absorb (k r s) (before ++ after)).

Inductive reachable (a0 : App) : App -> Prop :=
| reach_init : reachable a0 a0
| reach_step a b : reachable a0 a -> step a b -> reachable a0 b.

(** [init] itself: the listeners above are registered, and the target
    language display is filled in. *)
Definition init : Async unit := updateTargetLanguage.

(** ** Runs of one handler

    [finishes r tr o s'] : the suspended or finished handler [r] comes to its
    end with outcome [o] on page [s'], its promises having settled as the
    trace [tr] says.  Between a suspension and its resumption other handlers
    run, so the page a continuation is resumed on is arbitrary. *)

Inductive Answer : Type :=
| AResponse (r : Settled Response)
| AJson (r : Settled JsValue)
| AUnit (r : Settled unit).

Definition answer_of {X} (p : Awaited X) : Settled X -> Answer :=
  match p with
  | Fetch _ _ => AResponse
  | Json _ => AJson
  | WriteText _ => AUnit
  | Play => AUnit
  end.

Fixpoint finishes {A} (r : Res A) (tr : list Answer) (o : Outcome A) (s' : Page) : Prop :=
  match r, tr with
  | Done o0 s0, [] => o0 = o /\ s0 = s'
  | Susp p _ k, a :: tr' =>
      exists x s1, a = answer_of p x /\ may_settle p x /\ finishes (k x s1) tr' o s'
  | _, _ => False
  end.

(** The same run told with the pages: each answer comes with the page
    the handler is resumed on when it arrives. *)
Fixpoint resumes {A} (r : Res A) (tr : list (Answer * Page)) (o : Outcome A) (s' : Page)
  : Prop :=
  match r, tr with
  | Done o0 s0, [] => o0 = o /\ s0 = s'
  | Susp p _ k, (a, s1) :: tr' =>
      exists x, a = answer_of p x /\ may_settle p x /\ resumes (k x s1) tr' o s'
  | _, _ => False
  end.

(** The same with no other handler in between: every continuation is
    resumed on the page its suspension left, and [env] settles the
    promises. *)
Definition Env : Type := forall X, Awaited X -> Settled X.

Fixpoint run_alone {A} (env : Env) (r : Res A) : Outcome A * Page :=
  match r with
  | Done o s => (o, s)
  | Susp p s k => run_alone env (k (env _ p) s)
  end.

Fixpoint trace_alone {A} (env : Env) (r : Res A) : list Answer :=
  match r with
  | Done _ _ => []
  | Susp p s k => answer_of p (env _ p) :: trace_alone env (k (env _ p) s)
  end.

Fixpoint resumed_alone {A} (env : Env) (r : Res A) : list (Answer * Page) :=
  match r with
  | Done _ _ => []
  | Susp p s k => (answer_of p (env _ p), s) :: resumed_alone env (k (env _ p) s)
  end.

(** The server answers every request with a well-formed response whose
    body parses to [data]; clipboard and audio succeed. *)
Definition server_says (data : JsValue) : Env :=
  fun X p =>
    match p in Awaited X return Settled X with
    | Fetch _ _ => Fulfilled (mkResponse (Fulfilled data))
    | Json resp => json_body resp
    | WriteText _ => Fulfilled tt
    | Play => Fulfilled tt
    end.

(** The network fails: [fetch] rejects. *)
Definition network_down (e : JsError) : Env :=
  fun X p =>
    match p in Awaited X return Settled X with
    | Fetch _ _ => Rejected e
    | Json resp => json_body resp
    | WriteText _ => Fulfilled tt
    | Play => Fulfilled tt
    end.

(** The page a handler is suspended on, when it is. *)
Definition suspended_on {A} (r : Res A) : option Page :=
  match r with
  | Done _ _ => None
  | Susp _ s _ => Some s
  end.

(** ** Vocabulary of the properties *)

(** [showAlert msg type] has run between [s] and [s']: the alert that was
    displayed is gone and the new one is the last in the document. *)
Definition notified (type : string) (msg : jsstring) (s s' : Page) : Prop :=
  alerts s' =
  tl (alerts s) ++ [mkAlert (next_alert s) (lit "alert alert-" ++ lit type) (alert_markup msg) []].


Definition is_fetch (url : string) (e : Effect) : bool :=
  match e with
  | Fetched u _ => jsstring_eqb u (lit url)
  | _ => false
  end.

Definition requests (url : string) (s : Page) : list Effect :=
  filter (is_fetch url) (effects s).

(** The two handlers with a busy state. *)
Inductive Action : Set := ActTranslate | ActSpeak.

Definition handler (act : Action) : Async unit :=
  match act with ActTranslate => translate | ActSpeak => generateSpeech end.
Definition control (act : Action) : Elem :=
  match act with ActTranslate => translateBtn | ActSpeak => speakBtn end.

Definition translate_accepts (s : Page) : Prop :=
  trim (input_value s) <> [] /\ (jslength (trim (input_value s)) <= 5000)%N.

Definition accepts (act : Action) (s : Page) : Prop :=
  match act with
  | ActTranslate => translate_accepts s
  | ActSpeak => truthy (currentTranslation s) = true
  end.

(** What the handlers are expected to write, spelled out code unit by
    code unit; none of this is used by the handlers above. *)

Definition busy_markup (act : Action) : jsstring :=
  match act with
  | ActTranslate =>
      lit "<i class=" ++ [34%N] ++ lit "fas fa-spinner fa-spin" ++ [34%N]
      ++ lit "></i> Translating..."
  | ActSpeak =>
      lit "<i class=" ++ [34%N] ++ lit "fas fa-spinner fa-spin" ++ [34%N]
      ++ lit "></i> Generating..."
  end.

Definition idle_markup (act : Action) : jsstring :=
  match act with
  | ActTranslate =>
      lit "<i class=" ++ [34%N] ++ lit "fas fa-exchange-alt" ++ [34%N]
      ++ lit "></i> Translate Now"
  | ActSpeak =>
      lit "<i class=" ++ [34%N] ++ lit "fas fa-volume-up" ++ [34%N] ++ lit "></i> Listen"
  end.

(** The notification element for [msg]: class and markup as assigned. *)
Definition notification (id : nat) (type : string) (msg : jsstring) : AlertEl :=
  mkAlert id (lit "alert alert-" ++ lit type)
    ([10%N] ++ repeat 32%N 8 ++ lit "<span>" ++ msg ++ lit "</span>"
     ++ [10%N] ++ repeat 32%N 8 ++ lit "<button class=" ++ [34%N] ++ lit "alert-close"
     ++ [34%N] ++ lit ">&times;</button>" ++ [10%N] ++ repeat 32%N 4)
    [].

(** The markup of a translation result around the three texts of the
    response. *)
Definition result_markup (source target text : jsstring) : jsstring :=
  [10%N] ++ repeat 32%N 16 ++ lit "<div class=" ++ [34%N] ++ lit "translation-result"
  ++ [34%N] ++ lit ">" ++
  [10%N] ++ repeat 32%N 20 ++ lit "<div class=" ++ [34%N] ++ lit "source-info"
  ++ [34%N] ++ lit ">" ++
  [10%N] ++ repeat 32%N 24 ++ lit "<small>Translated from " ++ source ++ lit " to "
  ++ target ++ lit "</small>" ++
  [10%N] ++ repeat 32%N 20 ++ lit "</div>" ++
  [10%N] ++ repeat 32%N 20 ++ lit "<div class=" ++ [34%N] ++ lit "translation-text"
  ++ [34%N] ++ lit ">" ++ text ++ lit "</div>" ++
  [10%N] ++ repeat 32%N 16 ++ lit "</div>" ++
  [10%N] ++ repeat 32%N 12.



(** ** A page to run on

    The markup is not part of the script; this is a page whose elements
    carry no text yet, with a dropdown of three languages. *)

Definition blank : Element := mkElement [] [] [] false [] [] [] [] [].

Fixpoint starts_with (p s : jsstring) : bool :=
  match p, s with
  | [], _ => true
  | x :: p', y :: s' => code_eqb x y && starts_with p' s'
  | _ :: _, [] => false
  end.

Fixpoint occurs_in (p s : jsstring) : bool :=
  starts_with p s || match s with [] => false | _ :: r => occurs_in p r end.

(** A browser for the examples.  It answers as an HTML parser does for the
    texts used in them: an opening textarea tag takes all that follows as
    the text of the text area, so the close button after it is not found; an
    element of the output area that carries the id looked up comes before
    the page's own.  The errors are worded as V8 words them. *)
Definition sample_browser : Browser :=
  mkBrowser
    (fun msg => negb (occurs_in (lit "<textarea") msg))
    (fun id output => negb (occurs_in (lit " id=" ++ id) output))
    (fun base k =>
       lit "Cannot read properties of " ++ ToString base ++ lit " (reading '" ++ k ++ lit "')").

Definition sample_options : list (jsstring * jsstring) :=
  [(lit "fr", lit "French (fr)"); (lit "de", lit "German (de)"); (lit "es", lit "Spanish (es)")].

Definition sample_page (text : jsstring) : Page :=
  mkPage (fun e => match e with inputText => set_value text blank | _ => blank end)
         (mkSelect sample_options (Some 0%nat))
         (JStr []) (JStr []) None [] [] 0 0 0 [] sample_browser.

Definition bonjour : JsValue :=
  JObj [(lit "success", JBool true); (lit "translated_text", JStr (lit "Bonjour"));
        (lit "source_lang", JStr (lit "English")); (lit "source_code", JStr (lit "en"));
        (lit "target_lang", JStr (lit "French")); (lit "target_code", JStr (lit "fr"))].

(** ** Invariants of the event loop

    [safe I r]: every page the handler [r] leaves behind - where it
    suspends and where it ends - satisfies [I], provided the pages it is
    resumed on do. *)

Fixpoint safe {A} (I : Page -> Prop) (r : Res A) : Prop :=
  match r with
  | Done _ s => I s
  | Susp _ s k => I s /\ forall x s', I s' -> safe I (k x s')
  end.

Definition preserves {A} (I : Page -> Prop) (m : Async A) : Prop :=
  forall s, I s -> safe I (m s).

Definition task_safe (I : Page -> Prop) (t : Task) : Prop :=
  match t with
  | mkTask _ k => forall x s', I s' -> safe I (k x s')
  end.

Definition app_safe (I : Page -> Prop) (a : App) : Prop :=
  I (page a) /\ Forall (task_safe I) (tasks a).

Definition is_detect (t : Timer) : bool :=
  match callback t with
  | CbDetectLanguage => true
  | _ => false
  end.

(** The pending detection timers. *)
Definition detect_timers (s : Page) : list Timer := filter is_detect (timers s).

Definition alert_of (cb : Callback) : option nat :=
  match cb with
  | CbAlertDismiss a | CbAlertRemove a => Some a
  | _ => None
  end.

(** What holds of the page between any two steps of the event loop: timer
    ids are distinct and older than the next one; a pending detection timer
    is the one [detectTimeout] names; alerts, shown or referred to by a
    timer, are older than the next one. *)
Record page_ok (s : Page) : Prop := mk_page_ok {
  ok_timer_ids : NoDup (map timer_id (timers s));
  ok_timer_fresh : forall t, In t (timers s) -> timer_id t < next_timer s;
  ok_detect : forall t, In t (timers s) -> callback t = CbDetectLanguage ->
                        detectTimeout s = Some (timer_id t);
  ok_alert_fresh : forall x, In x (alerts s) -> alert_id x < next_alert s;
  ok_alert_timers : forall t a, In t (timers s) -> alert_of (callback t) = Some a ->
                                a < next_alert s
}.

(** A freshly loaded page: nothing displayed, nothing pending. *)
Definition fresh (s : Page) : Prop :=
  alerts s = [] /\ timers s = [] /\ detectTimeout s = None.

(** A burst of edits: each text is typed and followed by a pause, in
    milliseconds, before the next one. *)
Fixpoint typing (burst : list (jsstring * N)) (a : App) : App :=
  match burst with
  | [] => a
  | (text, pause) :: rest => typing rest (wait pause (handle (EInput text) a))
  end.

(** The page a handler leaves to the event loop when it yields: where it
    ends, or where it first suspends. *)
Definition landing {A} (r : Res A) : Page :=
  match r with
  | Done _ s => s
  | Susp _ s _ => s
  end.

(** The page after timer [t] has fired on [s]. *)
Definition fired (s : Page) (t : Timer) : Page :=
  landing ((modify (clearTimeout (Some (timer_id t)));; run_callback (callback t)) s).

Definition detect_request (text : jsstring) : Effect :=
  Fetched (lit "/detect") (JObj [(lit "text", JStr text)]).

Definition no_detect_pending (s : Page) : Prop :=
  forall t, In t (timers s) -> callback t <> CbDetectLanguage.

(** The two states of the debounce: the detection timer [d] is pending, or
    none is; [v] is the text in the box and [R] what has been sent to
    /detect so far. *)
Definition armed (d : Timer) (v : jsstring) (R : list Effect) (s : Page) : Prop :=
  page_ok s /\ input_value s = v /\ In d (timers s) /\ requests "/detect" s = R.

Definition quiet (v : jsstring) (R : list Effect) (s : Page) : Prop :=
  page_ok s /\ input_value s = v /\ no_detect_pending s /\ requests "/detect" s = R.

(** The timers that have come due on [s]. *)
Definition due_now (s : Page) : list Timer :=
  filter (fun t => (due t <=? now s)%N) (timers s).


Definition leaving (r : Timer) (s : Page) : Prop :=
  page_ok s /\ In r (timers s).



(** ** More vocabulary: environments, and what the handlers say *)


(** The browser's autoplay policy blocks [play()]. *)
Definition autoplay_blocked (e : JsError) : Env :=
  fun X p =>
    match p in Awaited X return Settled X with
    | Fetch _ _ => Rejected e
    | Json resp => json_body resp
    | WriteText _ => Fulfilled tt
    | Play => Rejected e
    end.

(** The most recently suspended handler is resumed, its promise settled
    by [env]. *)
Definition resume_last (env : Env) (a : App) : App :=
  match rev (tasks a) with
  | [] => a
  | mkTask p k :: earlier => absorb (k (env _ p) (page a)) (rev earlier)
  end.




(** The character counter shows the length of the text in the box. *)
Definition counter_in_sync (s : Page) : Prop :=
  textContent (dom s charCounter) = decimal (jslength (input_value s)).

Definition is_play (e : Effect) : bool :=
  match e with
  | AudioPlay => true
  | _ => false
  end.

(** How many times [audioElement.play()] has been called. *)
Definition plays (s : Page) : nat := length (filter is_play (effects s)).

Definition all_space (s : jsstring) : Prop := forall c, In c s -> is_js_space c = true.






(** * Properties *)

(** ** Strings *)

Lemma jslength_nil_iff (s : jsstring) : jslength s = 0%N <-> s = [].
Proof.
  unfold jslength; split; intro H.
  - destruct s; [reflexivity | simpl in H; lia].
  - subst; reflexivity.
Qed.


(** What a text area reads back has no CR in it, and is the text assigned
    when that had none. *)
Lemma normalize_newlines_no_cr (s : jsstring) : ~ In 13%N (normalize_newlines s).
Proof.
  assert (H : forall n t, length t <= n -> ~ In 13%N (normalize_newlines t)).
  { induction n as [| n IH]; intros [| c r] Hlen; cbn [normalize_newlines];
      try (intros []); cbn [length] in Hlen; [lia |].
    destruct (c =? 13)%N eqn:Ec.
    - destruct r as [| d r']; [intros [E | []]; discriminate E |].
      cbn [length] in Hlen.
      destruct (d =? 10)%N; intros [E | Hin]; try discriminate E.
      + apply (IH r'); [lia | exact Hin].
      + apply (IH (d :: r')); [cbn [length]; lia | exact Hin].
    - intros [E | Hin].
      + subst c. discriminate Ec.
      + apply (IH r); [lia | exact Hin]. }
  apply (H (length s)). apply le_n.
Qed.

Lemma normalize_newlines_plain (s : jsstring) : ~ In 13%N s -> normalize_newlines s = s.
Proof.
  induction s as [| c r IH]; intro H; cbn [normalize_newlines]; [reflexivity |].
  destruct (c =? 13)%N eqn:Ec.
  - apply N.eqb_eq in Ec. subst c. exfalso. apply H. left. reflexivity.
  - f_equal. apply IH. intro Hin. apply H. right. exact Hin.
Qed.

(** ** showAlert *)

Lemma showAlert_notified type msg s : notified type msg s (showAlert msg type s).
Proof. reflexivity. Qed.

Lemma showAlert_effects type msg s : effects (showAlert msg type s) = effects s.
Proof. reflexivity. Qed.

Lemma showAlert_dom type msg s : dom (showAlert msg type s) = dom s.
Proof. reflexivity. Qed.

(** A message without markup: the call is the page transformation. *)
Lemma call_showAlert_plain msg type :
  markup_free msg = true -> call_showAlert msg type = modify (showAlert msg type).
Proof.
  intro H. unfold call_showAlert, close_button_found, modify. rewrite H. reflexivity.
Qed.

(** ** The preconditions of translate *)



(** ** try, catch, finally *)

Section Blocks.
Variable A : Type.

(** A [finally] block that is straight-line code establishing [Q] makes
    [Q] hold however the guarded block ends, and keeps its outcome. *)
Lemma finally_res_finishes (c : Async unit) (Q : Page -> Prop) :
  (forall s, exists s', c s = Done (Normal tt) s' /\ Q s') ->
  forall (r : Res A) tr o s',
    finishes (finally_res r c) tr o s' ->
    Q s' /\ exists s0, finishes r tr o s0.
Proof.
  intros Hc r. induction r as [o0 s0 | X p s k IH]; intros tr o s' H.
  - destruct (Hc s0) as (s1 & E & HQ).
    cbn in H. rewrite E in H. cbn in H.
    destruct tr; [| contradiction].
    destruct H as [-> ->]. split; [assumption |].
    exists s0. cbn. auto.
  - destruct tr as [| a tr']; [contradiction |].
    cbn in H. destruct H as (x & s1 & Ha & Hs & H).
    destruct (IH x s1 tr' o s' H) as (HQ & s2 & H2).
    split; [assumption |].
    exists s2. cbn. exists x, s1. auto.
Qed.

(** The same for a handler left alone, whoever settles its promises. *)
Lemma finally_res_alone (env : Env) (c : Async unit) (Q : Page -> Prop) :
  (forall s, exists s', c s = Done (Normal tt) s' /\ Q s') ->
  forall r : Res A, Q (snd (run_alone env (finally_res r c))).
Proof.
  intros Hc r. induction r as [o0 s0 | X p s k IH]; cbn.
  - destruct (Hc s0) as (s1 & E & HQ). rewrite E. exact HQ.
  - apply IH.
Qed.

(** Left alone, a handler always comes to its end. *)
Lemma run_alone_finishes (env : Env) (r : Res A) :
  (forall X (p : Awaited X), may_settle p (env X p)) ->
  finishes r (trace_alone env r) (fst (run_alone env r)) (snd (run_alone env r)).
Proof.
  intro Henv. induction r as [o0 s0 | X p s k IH]; cbn.
  - auto.
  - exists (env X p), s. auto.
Qed.

(** A run left alone, told with its pages. *)
Lemma run_alone_resumes (env : Env) (r : Res A) :
  (forall X (p : Awaited X), may_settle p (env X p)) ->
  resumes r (resumed_alone env r) (fst (run_alone env r)) (snd (run_alone env r)).
Proof.
  intro Henv. induction r as [o0 s0 | X p s k IH]; cbn.
  - auto.
  - exists (env X p). auto.
Qed.
End Blocks.

Lemma server_says_may_settle data X (p : Awaited X) : may_settle p (server_says data p).
Proof. destruct p; cbn; auto. Qed.


(** ** The busy state *)

Lemma translate_accepted (s : Page) :
  translate_accepts s ->
  translate s =
  try_finally (try_catch (translate_try (trim (input_value s))) translate_catch)
              translate_finally s.
Proof.
  intros [Hne Hle]. unfold translate, bind, gets. cbn [bind_res].
  destruct (trim (input_value s)) as [|c r] eqn:E; [congruence |].
  apply N.leb_le in Hle. rewrite N.leb_antisym in Hle.
  apply negb_true_iff in Hle. rewrite Hle. reflexivity.
Qed.

Lemma speech_accepted (s : Page) :
  truthy (currentTranslation s) = true ->
  generateSpeech s = try_finally (try_catch speech_try speech_catch) speech_finally s.
Proof.
  intro H. unfold generateSpeech, bind, gets. cbn [bind_res]. rewrite H. reflexivity.
Qed.

Lemma handler_accepted (act : Action) (s : Page) :
  accepts act s ->
  exists body catch cleanup,
    handler act s = try_finally (try_catch body catch) cleanup s /\
    (forall s0, exists s1, cleanup s0 = Done (Normal tt) s1 /\
                           disabled (dom s1 (control act)) = false /\
                           innerHTML (dom s1 (control act)) = idle_markup act) /\
    exists s1, suspended_on (body s) = Some s1 /\
               disabled (dom s1 (control act)) = true /\
               innerHTML (dom s1 (control act)) = busy_markup act.
Proof.
  destruct act; intro H.
  - exists (translate_try (trim (input_value s))), translate_catch, translate_finally.
    split; [apply translate_accepted; assumption |].
    split; [intros; eexists; repeat split |].
    eexists; repeat split.
  - exists speech_try, speech_catch, speech_finally.
    split; [apply speech_accepted; assumption |].
    split; [intros; eexists; repeat split |].
    eexists; repeat split.
Qed.

Lemma suspended_on_catch A (r : Res A) h s :
  suspended_on r = Some s -> suspended_on (catch_res r h) = Some s.
Proof. destruct r; cbn; [discriminate | auto]. Qed.

Lemma suspended_on_finally A (r : Res A) c s :
  suspended_on r = Some s -> suspended_on (finally_res r c) = Some s.
Proof. destruct r; cbn; [discriminate | auto]. Qed.

(** C2.  A translate or speak handler that passes its precondition checks
    suspends with its control disabled under the busy label.  However its
    promises settle - fetch rejected, body not parseable, a response without
    success, a property read that throws, or success - whatever other
    handlers run meanwhile, and whether it ends normally or by a throw out
    of its own catch block (showAlert throws there when the failure message
    hides the close button), its final page has the control enabled under
    the idle label, <i class="fas fa-exchange-alt"></i> Translate Now or
    <i class="fas fa-volume-up"></i> Listen: the finally block runs on every
    exit path.  Left alone the handler does come to its end, whoever settles
    the promises. *)
Theorem busy_always_returns_to_idle (act : Action) (s : Page) :
  accepts act s ->
  (exists s1, suspended_on (handler act s) = Some s1 /\
              disabled (dom s1 (control act)) = true /\
              innerHTML (dom s1 (control act)) = busy_markup act) /\
  (forall tr o s',
      finishes (handler act s) tr o s' ->
      disabled (dom s' (control act)) = false /\
      innerHTML (dom s' (control act)) = idle_markup act) /\
  (forall env : Env,
      disabled (dom (snd (run_alone env (handler act s))) (control act)) = false /\
      innerHTML (dom (snd (run_alone env (handler act s))) (control act)) = idle_markup act).
Proof.
  intro Hacc.
  destruct (handler_accepted act s Hacc)
    as (body & catch & cleanup & E & Hclean & s1 & Hs1 & Hbusy).
  rewrite E. unfold try_finally, try_catch. split; [| split].
  - exists s1. split; [| assumption].
    apply suspended_on_finally, suspended_on_catch, Hs1.
  - intros tr o s' H.
    apply finally_res_finishes
      with (Q := fun p => disabled (dom p (control act)) = false /\
                          innerHTML (dom p (control act)) = idle_markup act) in H.
    + apply H.
    + assumption.
  - intro env.
    apply finally_res_alone
      with (Q := fun p => disabled (dom p (control act)) = false /\
                          innerHTML (dom p (control act)) = idle_markup act).
    assumption.
Qed.

Lemma sample_hello_accepted : accepts ActTranslate (sample_page (lit "Hello")).
Proof. split; [discriminate | vm_compute; discriminate]. Qed.

(** The server refuses "Hello" with the error text <textarea>: showAlert
    throws inside the catch block, translate ends by that throw, and the
    control is enabled and relabelled all the same. *)
Lemma busy_always_returns_to_idle_witness :
  let s := sample_page (lit "Hello") in
  let env := server_says (JObj [(lit "success", JBool false);
                                (lit "error", JStr (lit "<textarea>"))]) in
  accepts ActTranslate s /\
  (exists e, fst (run_alone env (translate s)) = Throw e) /\
  disabled (dom (snd (run_alone env (translate s))) translateBtn) = false /\
  innerHTML (dom (snd (run_alone env (translate s))) translateBtn)
  = lit "<i class=" ++ [34%N] ++ lit "fas fa-exchange-alt" ++ [34%N]
    ++ lit "></i> Translate Now".
Proof.
  intros s env. split; [exact sample_hello_accepted |].
  split; [eexists; reflexivity |].
  exact (proj1 (proj2 (busy_always_returns_to_idle ActTranslate s sample_hello_accepted))
               (trace_alone env (translate s))
               (fst (run_alone env (translate s)))
               (snd (run_alone env (translate s)))
               (run_alone_finishes env (translate s) (server_says_may_settle _))).
Defined.

(** ** Client-side validation *)






(** ** Detection of a short text *)

(** C6.  When the trimmed input text has fewer than 3 code units as
    detectLanguage runs, the handler ends at once: no request to /detect (or
    anywhere) leaves the page, the detection display reads "Text too short"
    and its code reads "--". *)
Theorem detect_short_text_placeholder (s : Page) :
  (jslength (trim (input_value s)) < 3)%N ->
  exists s', detectLanguage s = Done (Normal tt) s' /\
             effects s' = effects s /\
             requests "/detect" s' = requests "/detect" s /\
             textContent (dom s' detectedLang) = lit "Text too short" /\
             textContent (dom s' detectedLangCode) = lit "--".
Proof.
  intro H. apply N.ltb_lt in H.
  unfold detectLanguage, bind, gets. cbn [bind_res]. rewrite H.
  eexists. split; [reflexivity |]. repeat split.
Qed.

Lemma detect_short_text_placeholder_witness :
  let s := sample_page (lit "  hi ") in
  (jslength (trim (input_value s)) < 3)%N /\
  exists s', detectLanguage s = Done (Normal tt) s' /\
             effects s' = effects s /\
             requests "/detect" s' = requests "/detect" s /\
             textContent (dom s' detectedLang) = lit "Text too short" /\
             textContent (dom s' detectedLangCode) = lit "--".
Proof.
  intro s.
  assert (H : (jslength (trim (input_value s)) < 3)%N) by (vm_compute; reflexivity).
  split; [exact H | exact (detect_short_text_placeholder s H)].
Defined.

(** ** Actions that need a translation *)



(** ** Clear *)


(** ** The speech request *)

Lemma speech_suspends (s : Page) :
  truthy (currentTranslation s) = true ->
  exists k,
    generateSpeech s =
    Susp (Fetch (lit "/tts") (speech_request (currentTranslation s) (select_value (targetLang s))))
         (emit (Fetched (lit "/tts")
                  (speech_request (currentTranslation s) (select_value (targetLang s))))
            (assign speakBtn (set_innerHTML speak_busy_label)
               (assign speakBtn (set_disabled true) s)))
         k.
Proof.
  intro H. rewrite (speech_accepted s H). eexists. reflexivity.
Qed.

(** ** Resumptions of translate and of generateSpeech *)




(** ** A successful translation *)





(** ** The language of the speech request *)

Lemma select_target_page (s : Page) (ts : list Task) j v name :
  nth_error (options (targetLang s)) j = Some (v, name) ->
  handle (ESelectTarget j) (mkApp s ts) =
  mkApp (assign targetLangCode (set_textContent v)
           (assign targetLangName (set_textContent (trim (split_first 40 name)))
              (with_targetLang (fun sel => mkSelect (options sel) (Some j)) s)))
        ts.
Proof.
  intro H. unfold handle. cbn [page tasks].
  assert (Hlt : (j <? length (options (targetLang s)))%nat = true).
  { apply Nat.ltb_lt, nth_error_Some. rewrite H. discriminate. }
  rewrite Hlt.
  unfold launch, bind, modify, updateTargetLanguage, bind, gets. cbn [page tasks bind_res].
  unfold selected_option. cbn [targetLang with_targetLang selectedIndex options].
  rewrite H. cbn [bind_res modify].
  unfold select_value, selected_option.
  cbn [targetLang with_targetLang selectedIndex options assign with_dom].
  rewrite H. reflexivity.
Qed.

(** C10.  With a translation stored, generateSpeech sends to /tts a body
    of exactly two members: [text], the stored translation, and [lang], the
    value of the target-language dropdown as it is when speak is invoked.
    So when the user picks option [j] of the dropdown and then clicks speak,
    the request carries that option's value, whatever language the stored
    translation was made for. *)
Theorem speech_request_reads_dropdown (s : Page) :
  truthy (currentTranslation s) = true ->
  (exists s1, suspended_on (generateSpeech s) = Some s1 /\
              effects s1 = effects s ++
                [Fetched (lit "/tts")
                   (JObj [(lit "text", currentTranslation s);
                          (lit "lang", JStr (select_value (targetLang s)))])]) /\
  (forall j v name ts,
      disabled (dom s speakBtn) = false ->
      nth_error (options (targetLang s)) j = Some (v, name) ->
      effects (page (handle (EClick speakBtn) (handle (ESelectTarget j) (mkApp s ts))))
      = effects s ++
        [Fetched (lit "/tts") (JObj [(lit "text", currentTranslation s); (lit "lang", JStr v)])]).
Proof.
  intro H. split.
  - destruct (speech_suspends s H) as (k & E). rewrite E.
    eexists. split; reflexivity.
  - intros j v name ts Hen Hopt.
    rewrite (@select_target_page s ts j v name Hopt).
    set (s2 := assign targetLangCode _ _).
    assert (H2 : truthy (currentTranslation s2) = true) by exact H.
    unfold handle. cbn [page tasks].
    change (disabled (dom s2 speakBtn)) with (disabled (dom s speakBtn)). rewrite Hen.
    unfold launch, on_click. cbn [page tasks].
    destruct (speech_suspends s2 H2) as (k & E). rewrite E. cbn [absorb page].
    unfold s2 at 1. cbn [effects emit assign with_dom with_targetLang].
    unfold speech_request. repeat f_equal.
    unfold s2. cbn. unfold select_value, selected_option. cbn. rewrite Hopt. reflexivity.
Qed.

(** "Hello" is translated to French; the user then picks German and clicks
    speak: "Bonjour" is sent for synthesis as German. *)
Lemma speech_request_reads_dropdown_witness :
  let s := snd (run_alone (server_says bonjour) (translate (sample_page (lit "Hello")))) in
  truthy (currentTranslation s) = true /\
  textContent (dom s targetLangCode) = lit "fr" /\
  effects (page (handle (EClick speakBtn) (handle (ESelectTarget 1) (mkApp s []))))
  = [Fetched (lit "/translate")
       (JObj [(lit "text", JStr (lit "Hello")); (lit "target_lang", JStr (lit "fr"))]);
     Fetched (lit "/tts")
       (JObj [(lit "text", JStr (lit "Bonjour")); (lit "lang", JStr (lit "de"))])].
Proof.
  intro s. split; [reflexivity |]. split; [reflexivity |].
  exact (proj2 (speech_request_reads_dropdown s eq_refl) 1%nat (lit "de") (lit "German (de)") []
               eq_refl eq_refl).
Defined.

(** ** A detection request that fails *)

Lemma detect_accepted (s : Page) :
  (3 <= jslength (trim (input_value s)))%N ->
  detectLanguage s = try_catch (detect_try (trim (input_value s))) detect_catch s.
Proof.
  intro H. apply N.ltb_ge in H.
  unfold detectLanguage, bind, gets. cbn [bind_res]. rewrite H. reflexivity.
Qed.

(** The network or the parse fails: the catch block reports it, and the
    detection display is not touched. *)
Lemma detect_transport_failure_notifies (s : Page) (e : JsError) :
  (3 <= jslength (trim (input_value s)))%N ->
  let s' := snd (run_alone (network_down e) (detectLanguage s)) in
  notified "error" (lit "Language detection failed") s s' /\
  textContent (dom s' detectedLang) = textContent (dom s detectedLang) /\
  textContent (dom s' detectedLangCode) = textContent (dom s detectedLangCode).
Proof.
  intros H s'. unfold s'. rewrite (detect_accepted s H). repeat split.
Qed.

Lemma detect_parse_failure_notifies (s : Page) (e : JsError) :
  (3 <= jslength (trim (input_value s)))%N ->
  let env : Env := fun X p =>
    match p in Awaited X return Settled X with
    | Fetch _ _ => Fulfilled (mkResponse (Rejected e))
    | Json resp => json_body resp
    | WriteText _ => Fulfilled tt
    | Play => Fulfilled tt
    end in
  let s' := snd (run_alone env (detectLanguage s)) in
  notified "error" (lit "Language detection failed") s s' /\
  textContent (dom s' detectedLang) = textContent (dom s detectedLang) /\
  textContent (dom s' detectedLangCode) = textContent (dom s detectedLangCode).
Proof.
  intros H env s'. unfold s'. rewrite (detect_accepted s H). repeat split.
Qed.

(** C3, where the code departs from it.  The server answers a detection
    request with a body whose [success] is falsy: detectLanguage ends
    normally and does nothing at all - the page is the one the request left,
    with the detection display as it was and no notification shown. *)
Theorem detect_nonsuccess_is_silent (s : Page) (data ok : JsValue) :
  (3 <= jslength (trim (input_value s)))%N ->
  get_prop data "success" = inl ok -> truthy ok = false ->
  run_alone (server_says data) (detectLanguage s)
  = (Normal tt, emit (detect_request (trim (input_value s))) s) /\
  alerts (snd (run_alone (server_says data) (detectLanguage s))) = alerts s.
Proof.
  intros H Hget Hok. rewrite (detect_accepted s H).
  unfold try_catch, detect_try, bind, fetch, bind, modify, await.
  cbn [run_alone catch_res bind_res server_says json_body].
  unfold detect_on_data, bind, prop. rewrite Hget. cbn [bind_res ret].
  rewrite Hok. cbn. split; reflexivity.
Qed.

(** "hello" is sent for detection and the server answers
    [{success: false}]: no alert is in the document afterwards. *)
Lemma detect_nonsuccess_is_silent_witness :
  let s := sample_page (lit "hello") in
  let data := JObj [(lit "success", JBool false)] in
  (3 <= jslength (trim (input_value s)))%N /\
  alerts (snd (run_alone (server_says data) (detectLanguage s))) = [] /\
  effects (snd (run_alone (server_says data) (detectLanguage s)))
  = [detect_request (lit "hello")].
Proof.
  intros s data.
  assert (H : (3 <= jslength (trim (input_value s)))%N) by (vm_compute; discriminate).
  split; [exact H |].
  pose proof (detect_nonsuccess_is_silent s data (ok := JBool false) H eq_refl eq_refl)
    as [E Hal].
  split; [exact Hal |]. rewrite E. reflexivity.
Defined.

(** ** Preservation of an invariant by the combinators *)

Section Preservation.
Variable I : Page -> Prop.

Lemma safe_bind_res A B (r : Res A) (f : A -> Async B) :
  safe I r -> (forall a, preserves I (f a)) -> safe I (bind_res r f).
Proof.
  intros Hr Hf. induction r as [[a | e] s | X p s k IH]; cbn in *.
  - apply Hf, Hr.
  - exact Hr.
  - destruct Hr as [Hs Hk]. split; [exact Hs |]. intros x s' Hs'. apply IH, Hk, Hs'.
Qed.

Lemma safe_catch_res A (r : Res A) (h : JsError -> Async A) :
  safe I r -> (forall e, preserves I (h e)) -> safe I (catch_res r h).
Proof.
  intros Hr Hh. induction r as [[a | e] s | X p s k IH]; cbn in *.
  - exact Hr.
  - apply Hh, Hr.
  - destruct Hr as [Hs Hk]. split; [exact Hs |]. intros x s' Hs'. apply IH, Hk, Hs'.
Qed.

Lemma safe_finally_res A (r : Res A) (c : Async unit) :
  safe I r -> preserves I c -> safe I (finally_res r c).
Proof.
  intros Hr Hc. induction r as [o s | X p s k IH]; cbn in *.
  - apply safe_bind_res; [apply Hc, Hr |]. intros _ s' Hs'. exact Hs'.
  - destruct Hr as [Hs Hk]. split; [exact Hs |]. intros x s' Hs'. apply IH, Hk, Hs'.
Qed.

Lemma preserves_ret A (a : A) : preserves I (ret a).
Proof. intros s Hs. exact Hs. Qed.

Lemma preserves_throw A (e : JsError) : preserves I (@throw A e).
Proof. intros s Hs. exact Hs. Qed.

Lemma preserves_gets A (f : Page -> A) : preserves I (gets f).
Proof. intros s Hs. exact Hs. Qed.

Lemma preserves_modify (f : Page -> Page) :
  (forall s, I s -> I (f s)) -> preserves I (modify f).
Proof. intros Hf s Hs. apply Hf, Hs. Qed.

Lemma preserves_await X (p : Awaited X) : preserves I (await p).
Proof.
  intros s Hs. cbn. split; [exact Hs |]. intros [x | e] s' Hs'; exact Hs'.
Qed.

Lemma preserves_bind A B (m : Async A) (f : A -> Async B) :
  preserves I m -> (forall a, preserves I (f a)) -> preserves I (bind m f).
Proof. intros Hm Hf s Hs. apply safe_bind_res; [apply Hm, Hs | exact Hf]. Qed.

Lemma preserves_try_catch A (m : Async A) (h : JsError -> Async A) :
  preserves I m -> (forall e, preserves I (h e)) -> preserves I (try_catch m h).
Proof. intros Hm Hh s Hs. apply safe_catch_res; [apply Hm, Hs | exact Hh]. Qed.

Lemma preserves_try_finally A (m : Async A) (c : Async unit) :
  preserves I m -> preserves I c -> preserves I (try_finally m c).
Proof. intros Hm Hc s Hs. apply safe_finally_res; [apply Hm, Hs | exact Hc]. Qed.

Lemma preserves_null_read A base k : preserves I (@null_read A base k).
Proof. intros s Hs. exact Hs. Qed.

Lemma preserves_prop v k : preserves I (prop v k).
Proof.
  unfold prop. destruct (get_prop v k); [apply preserves_ret | apply preserves_null_read].
Qed.

(** A handler started, or a task resumed, on a safe application leaves a
    safe application. *)
Lemma absorb_safe (r : Res unit) (ts : list Task) :
  safe I r -> Forall (task_safe I) ts -> app_safe I (absorb r ts).
Proof.
  intros Hr Hts. destruct r as [o s | X p s k]; cbn in *.
  - split; assumption.
  - destruct Hr as [Hs Hk]. split; [exact Hs |].
    apply Forall_app. split; [exact Hts |]. constructor; [exact Hk | constructor].
Qed.

Lemma launch_safe (m : Async unit) (a : App) :
  preserves I m -> app_safe I a -> app_safe I (launch m a).
Proof. intros Hm [Hp Hts]. apply absorb_safe; [apply Hm, Hp | exact Hts]. Qed.
End Preservation.

(** ** The page invariant and the primitives *)

(** The invariant only looks at the alerts, the timers, their counters and
    [detectTimeout]. *)
Lemma page_ok_same (s s' : Page) :
  alerts s' = alerts s -> timers s' = timers s -> next_timer s' = next_timer s ->
  next_alert s' = next_alert s -> detectTimeout s' = detectTimeout s ->
  page_ok s -> page_ok s'.
Proof.
  intros Ea Et Ent Ena Ed [H2 H3 H4 H5 H6].
  constructor; rewrite ?Ea, ?Et, ?Ent, ?Ena, ?Ed; assumption.
Qed.

Lemma assign_ok el f s : page_ok s -> page_ok (assign el f s).
Proof. apply page_ok_same; reflexivity. Qed.

Lemma emit_ok e s : page_ok s -> page_ok (emit e s).
Proof. apply page_ok_same; reflexivity. Qed.

Lemma set_currentTranslation_ok v s : page_ok s -> page_ok (set_currentTranslation v s).
Proof. apply page_ok_same; reflexivity. Qed.

Lemma set_currentAudioUrl_ok v s : page_ok s -> page_ok (set_currentAudioUrl v s).
Proof. apply page_ok_same; reflexivity. Qed.

Lemma with_targetLang_ok f s : page_ok s -> page_ok (with_targetLang f s).
Proof. apply page_ok_same; reflexivity. Qed.

Lemma set_now_ok t s : page_ok s -> page_ok (set_now t s).
Proof. apply page_ok_same; reflexivity. Qed.

Lemma In_timer_id_bound (ts : list Timer) (n : nat) :
  (forall t, In t ts -> timer_id t < n) -> ~ In n (map timer_id ts).
Proof.
  intros H Hin. apply in_map_iff in Hin. destruct Hin as (t & E & Ht).
  apply H in Ht. lia.
Qed.

Lemma NoDup_snoc A (l : list A) (x : A) : NoDup l -> ~ In x l -> NoDup (l ++ [x]).
Proof.
  intros Hl Hx. induction Hl as [| y l Hy Hl IH]; cbn.
  - constructor; [intros [] | constructor].
  - constructor.
    + rewrite in_app_iff. intros [H | [H | []]]; [contradiction |].
      subst. apply Hx. left. reflexivity.
    + apply IH. intro H. apply Hx. right. exact H.
Qed.

(** A timer for anything but detectLanguage, about an alert that exists. *)
Lemma setTimeout_ok cb delay s :
  cb <> CbDetectLanguage ->
  (forall a, alert_of cb = Some a -> a < next_alert s) ->
  page_ok s -> page_ok (snd (setTimeout cb delay s)).
Proof.
  intros Hcb Hal [H2 H3 H4 H5 H6]. constructor; cbn.
  - rewrite map_app. apply NoDup_snoc; [exact H2 |].
    apply In_timer_id_bound, H3.
  - intros t Ht. apply in_app_iff in Ht. destruct Ht as [Ht | [<- | []]]; cbn.
    + apply H3 in Ht. lia.
    + lia.
  - intros t Ht Ecb. apply in_app_iff in Ht. destruct Ht as [Ht | [<- | []]].
    + apply H4; assumption.
    + cbn in Ecb. contradiction.
  - exact H5.
  - intros t a Ht Ea. apply in_app_iff in Ht. destruct Ht as [Ht | [<- | []]].
    + eapply H6; eassumption.
    + apply Hal. exact Ea.
Qed.

(** Dropping timers keeps the ids of the rest distinct. *)
Lemma filter_timers_distinct (keep : Timer -> bool) (ts : list Timer) :
  NoDup (map timer_id ts) -> NoDup (map timer_id (filter keep ts)).
Proof.
  intro Hts. induction ts as [| t ts IH]; [constructor |].
  cbn [map] in Hts. apply NoDup_cons_iff in Hts. destruct Hts as [Hfresh Hrest].
  cbn [filter]. destruct (keep t); [| exact (IH Hrest)].
  cbn [map]. apply NoDup_cons; [| exact (IH Hrest)].
  contradict Hfresh.
  apply in_map_iff in Hfresh. destruct Hfresh as (u & Eid & Hu).
  rewrite <- Eid. apply in_map. apply filter_In in Hu. exact (proj1 Hu).
Qed.

Lemma clearTimeout_ok id s : page_ok s -> page_ok (clearTimeout id s).
Proof.
  destruct id as [i |]; [| exact (fun H => H)].
  intros [H2 H3 H4 H5 H6]. constructor; cbn.
  - apply filter_timers_distinct, H2.
  - intros t Ht. apply filter_In in Ht. apply H3, Ht.
  - intros t Ht. apply filter_In in Ht. apply H4, Ht.
  - exact H5.
  - intros t a Ht. apply filter_In in Ht. apply H6, Ht.
Qed.

Lemma showAlert_appended_ok msg type s : page_ok s -> page_ok (showAlert_appended msg type s).
Proof.
  intros [H2 H3 H4 H5 H6]. unfold showAlert_appended.
  constructor; cbn.
  - exact H2.
  - exact H3.
  - exact H4.
  - intros x Hx. apply in_app_iff in Hx. destruct Hx as [Hx | [<- | []]]; cbn; [| lia].
    assert (In x (alerts s)) by (destruct (alerts s); [destruct Hx | right; exact Hx]).
    apply H5 in H. lia.
  - intros t a Ht Ea. specialize (H6 t a Ht Ea). lia.
Qed.

Lemma showAlert_ok msg type s : page_ok s -> page_ok (showAlert msg type s).
Proof.
  intros [H2 H3 H4 H5 H6]. unfold showAlert.
  apply setTimeout_ok; [discriminate | cbn; intros a [= <-]; lia |].
  constructor; cbn.
  - exact H2.
  - exact H3.
  - exact H4.
  - intros x Hx. apply in_app_iff in Hx. destruct Hx as [Hx | [<- | []]]; cbn; [| lia].
    assert (In x (alerts s)) by (destruct (alerts s); [destruct Hx | right; exact Hx]).
    apply H5 in H. lia.
  - intros t a Ht Ea. specialize (H6 t a Ht Ea). lia.
Qed.

Lemma animate_out_ok a s : page_ok s -> page_ok (animate_out a s).
Proof.
  intros [H2 H3 H4 H5 H6]. constructor; cbn; try assumption.
  intros x Hx. apply in_map_iff in Hx. destruct Hx as (y & <- & Hy).
    destruct (Nat.eqb (alert_id y) a); cbn; apply H5, Hy.
Qed.

Lemma in_document_bound a s : page_ok s -> in_document a s = true -> a < next_alert s.
Proof.
  intros H Hin. apply existsb_exists in Hin. destruct Hin as (x & Hx & E).
  apply Nat.eqb_eq in E. subst a. apply (ok_alert_fresh H), Hx.
Qed.

Lemma alert_close_ok a s : in_document a s = true -> page_ok s -> page_ok (alert_close a s).
Proof.
  intros Hin H. unfold alert_close.
  apply setTimeout_ok; [discriminate | | apply animate_out_ok, H].
  cbn. intros ? [= <-]. apply in_document_bound; assumption.
Qed.

Lemma alert_dismiss_ok a s : page_ok s -> page_ok (alert_dismiss a s).
Proof.
  intro H. unfold alert_dismiss. destruct (in_document a s) eqn:E; [| exact H].
  apply (alert_close_ok a E H).
Qed.

Lemma alert_remove_ok a s : page_ok s -> page_ok (alert_remove a s).
Proof.
  intros [H2 H3 H4 H5 H6]. constructor; cbn; try assumption.
  intros x Hx. apply filter_In in Hx. apply H5, Hx.
Qed.

Lemma on_input_counter_ok s : page_ok s -> page_ok (on_input_counter s).
Proof. intro H. unfold on_input_counter. apply assign_ok, assign_ok, H. Qed.

(** The debounce: after [clearTimeout(detectTimeout)] no detection timer
    is pending, so the one armed next is the only one. *)
Lemma cleared_no_detect s t :
  page_ok s -> In t (timers (clearTimeout (detectTimeout s) s)) ->
  callback t <> CbDetectLanguage.
Proof.
  intros H Ht Ecb. destruct (detectTimeout s) as [i |] eqn:Ed; cbn in Ht.
  - apply filter_In in Ht. destruct Ht as [Ht Hne].
    pose proof (ok_detect H t Ht Ecb) as E. rewrite Ed in E. injection E as ->.
    rewrite Nat.eqb_refl in Hne. discriminate.
  - pose proof (ok_detect H t Ht Ecb) as E. rewrite Ed in E. discriminate.
Qed.

Lemma on_input_detect_ok s : page_ok s -> page_ok (on_input_detect s).
Proof.
  intro H. unfold on_input_detect.
  pose proof (clearTimeout_ok (detectTimeout s) H) as Hc.
  pose proof (fun t => @cleared_no_detect s t H) as Hnone.
  set (s1 := clearTimeout (detectTimeout s) s) in *.
  destruct (3 <=? jslength (trim (input_value s1)))%N; [| exact Hc].
  destruct Hc as [H2 H3 H4 H5 H6]. constructor; cbn.
  - rewrite map_app. apply NoDup_snoc; [exact H2 | apply In_timer_id_bound, H3].
  - intros t Ht. apply in_app_iff in Ht. destruct Ht as [Ht | [<- | []]]; cbn.
    + apply H3 in Ht. lia.
    + lia.
  - intros t Ht Ecb. apply in_app_iff in Ht. destruct Ht as [Ht | [<- | []]].
    + exfalso. exact (Hnone t Ht Ecb).
    + reflexivity.
  - exact H5.
  - intros t a Ht Ea. apply in_app_iff in Ht. destruct Ht as [Ht | [<- | []]].
    + eapply H6; eassumption.
    + discriminate Ea.
Qed.

Lemma dispatch_input_ok s : page_ok s -> page_ok (dispatch_input s).
Proof. intro H. apply on_input_detect_ok, on_input_counter_ok, H. Qed.

Lemma clearAll_ok s : page_ok s -> page_ok (clearAll s).
Proof.
  intro H. unfold clearAll.
  repeat first [apply showAlert_ok | apply assign_ok | apply set_currentTranslation_ok].
  exact H.
Qed.

Lemma on_quick_text_ok text s : page_ok s -> page_ok (on_quick_text text s).
Proof.
  intro H. unfold on_quick_text. apply showAlert_ok, dispatch_input_ok, assign_ok, H.
Qed.

Lemma enable_download_ok inserted s : page_ok s -> page_ok (enable_download inserted s).
Proof.
  intro H. unfold enable_download.
  destruct (_ || _); [apply assign_ok, H | exact H].
Qed.

Lemma set_audio_status_ok text s : page_ok s -> page_ok (set_audio_status text s).
Proof.
  intro H. unfold set_audio_status.
  destruct (own_element_by_id _ _ _); [apply assign_ok, H | exact H].
Qed.

(** ** The handlers keep the invariant *)

Create HintDb page_ok.
#[local] Hint Resolve assign_ok emit_ok set_currentTranslation_ok set_currentAudioUrl_ok
  with_targetLang_ok set_now_ok showAlert_ok clearTimeout_ok alert_dismiss_ok alert_remove_ok
  dispatch_input_ok clearAll_ok on_quick_text_ok enable_download_ok set_audio_status_ok
  : page_ok.

Ltac page_step :=
  match goal with
  | |- preserves _ (bind _ _) => apply preserves_bind; [| intro]
  | |- preserves _ (try_finally _ _) => apply preserves_try_finally
  | |- preserves _ (try_catch _ _) => apply preserves_try_catch; [| intro]
  | |- preserves _ (modify _) => apply preserves_modify; intros ? ?
  | |- preserves _ (gets _) => apply preserves_gets
  | |- preserves _ (ret _) => apply preserves_ret
  | |- preserves _ (throw _) => apply preserves_throw
  | |- preserves _ (await _) => apply preserves_await
  | |- preserves _ (prop _ _) => apply preserves_prop
  | |- preserves _ (null_read _ _) => apply preserves_null_read
  | |- preserves _ (if ?b then _ else _) => destruct b
  | |- preserves _ (match ?x with _ => _ end) => destruct x
  | |- preserves _ _ => solve [auto]
  end.

Ltac page_solve := repeat page_step; auto with page_ok.

Lemma fetch_preserves url body : preserves page_ok (fetch url body).
Proof. unfold fetch. page_solve. Qed.

Lemma console_error_preserves label e : preserves page_ok (console_error label e).
Proof. unfold console_error. page_solve. Qed.

Lemma call_showAlert_preserves msg type : preserves page_ok (call_showAlert msg type).
Proof.
  intros s H. unfold call_showAlert.
  destruct (close_button_found msg s); cbn;
    [apply showAlert_ok, H | apply showAlert_appended_ok, H].
Qed.

Lemma updateTargetLanguage_preserves : preserves page_ok updateTargetLanguage.
Proof. unfold updateTargetLanguage. page_solve. Qed.

Lemma detectLanguage_preserves : preserves page_ok detectLanguage.
Proof.
  unfold detectLanguage, detect_try, detect_catch, detect_on_data.
  pose proof fetch_preserves. pose proof console_error_preserves.
  pose proof call_showAlert_preserves.
  page_solve.
Qed.

Lemma translate_preserves : preserves page_ok translate.
Proof.
  unfold translate, translate_try, translate_catch, translate_finally, translate_on_data.
  pose proof fetch_preserves. pose proof console_error_preserves.
  pose proof call_showAlert_preserves.
  page_solve.
Qed.

Lemma generateSpeech_preserves : preserves page_ok generateSpeech.
Proof.
  unfold generateSpeech, speech_try, speech_catch, speech_finally, speech_on_data.
  pose proof fetch_preserves. pose proof console_error_preserves.
  pose proof call_showAlert_preserves.
  page_solve.
  apply setTimeout_ok; [discriminate | discriminate | assumption].
Qed.

Lemma copyTranslation_preserves : preserves page_ok copyTranslation.
Proof.
  unfold copyTranslation, copy_then, copy_catch.
  pose proof console_error_preserves.
  page_solve.
  apply setTimeout_ok; [discriminate | discriminate | assumption].
Qed.

Lemma on_click_preserves b : preserves page_ok (on_click b).
Proof.
  destruct b; cbn [on_click];
    first [ exact translate_preserves | exact detectLanguage_preserves
          | exact generateSpeech_preserves | exact copyTranslation_preserves
          | page_solve ].
Qed.

Lemma run_callback_preserves cb : preserves page_ok (run_callback cb).
Proof.
  destruct cb; cbn [run_callback].
  - exact detectLanguage_preserves.
  - unfold auto_play. page_solve.
  - page_solve.
  - page_solve.
  - page_solve.
Qed.

(** ** The invariant along the event loop *)

Lemma handle_safe e a : app_safe page_ok a -> app_safe page_ok (handle e a).
Proof.
  intro H. destruct e; cbn [handle].
  - apply launch_safe; [page_solve | exact H].
  - apply launch_safe; [exact translate_preserves | exact H].
  - destruct (disabled (dom (page a) b)); [exact H |].
    apply launch_safe; [apply on_click_preserves | exact H].
  - apply launch_safe; [| exact H]. unfold on_quick_lang.
    pose proof updateTargetLanguage_preserves. page_solve.
  - apply launch_safe; [| exact H]. unfold on_lang_card.
    pose proof updateTargetLanguage_preserves. pose proof call_showAlert_preserves.
    page_solve.
  - apply launch_safe; [page_solve | exact H].
  - destruct (i <? length (options (targetLang (page a))))%nat; [| exact H].
    apply launch_safe; [| exact H].
    pose proof updateTargetLanguage_preserves. page_solve.
  - destruct (in_document a0 (page a)) eqn:E; [| exact H].
    destruct H as [Hp Hts]. split; [| exact Hts].
    apply (alert_close_ok a0 E Hp).
  - apply launch_safe; [| exact H]. unfold on_download_click. page_solve.
  - apply launch_safe; [page_solve | exact H].
  - apply launch_safe; [page_solve | exact H].
Qed.

Lemma fire_safe a t : app_safe page_ok a -> app_safe page_ok (fire a t).
Proof.
  intro H. unfold fire. destruct (pending (timer_id t) (page a)); [| exact H].
  apply launch_safe; [| exact H].
  pose proof (run_callback_preserves (callback t)). page_solve.
Qed.

Lemma fold_fire_safe l a : app_safe page_ok a -> app_safe page_ok (fold_left fire l a).
Proof.
  revert a. induction l as [| t l IH]; intros a H; cbn; [exact H |].
  apply IH, fire_safe, H.
Qed.

Lemma tick_safe a : app_safe page_ok a -> app_safe page_ok (tick a).
Proof.
  intros [Hp Hts]. unfold tick. apply fold_fire_safe.
  split; [apply set_now_ok, Hp | exact Hts].
Qed.

Lemma wait_succ n a : wait (N.succ n) a = tick (wait n a).
Proof. apply N.iter_succ. Qed.


Lemma wait_safe n a : app_safe page_ok a -> app_safe page_ok (wait n a).
Proof.
  intro H. induction n as [| n IH] using N.peano_ind; [exact H |].
  rewrite wait_succ. apply tick_safe, IH.
Qed.

Lemma step_safe a b : step a b -> app_safe page_ok a -> app_safe page_ok b.
Proof.
  intros Hstep H. destruct Hstep as [e a | a | s before X p k after r Hr].
  - apply handle_safe, H.
  - apply tick_safe, H.
  - destruct H as [Hp Hts]. cbn in Hp, Hts.
    apply Forall_app in Hts. destruct Hts as [Hb Hta].
    inversion Hta as [| ? ? Hk Ha]; subst.
    apply absorb_safe.
    + apply Hk, Hp.
    + apply Forall_app. split; assumption.
Qed.

Lemma reachable_safe a0 a : app_safe page_ok a0 -> reachable a0 a -> app_safe page_ok a.
Proof.
  intros H0 Hr. induction Hr as [| a b _ IH Hstep]; [exact H0 |].
  exact (step_safe Hstep IH).
Qed.

Lemma fresh_ok s : fresh s -> page_ok s.
Proof.
  intros (Ea & Et & Ed). constructor; rewrite ?Ea, ?Et; cbn;
    try (intros; contradiction); constructor.
Qed.

Lemma loaded_safe s : fresh s -> app_safe page_ok (mkApp s []).
Proof. intro H. split; [apply fresh_ok, H | constructor]. Qed.

(** All pending detection timers carry the id in [detectTimeout], and ids
    are distinct: there is at most one. *)
Lemma same_id_at_most_one (l : list Timer) (i : nat) :
  NoDup (map timer_id l) -> (forall t, In t l -> timer_id t = i) -> length l <= 1.
Proof.
  intros Hnd Hid. destruct l as [| t1 [| t2 l]]; cbn; try lia.
  exfalso. cbn in Hnd. inversion Hnd as [| ? ? Hnot _]; subst.
  apply Hnot. left.
  rewrite (Hid t1), (Hid t2); cbn; auto.
Qed.

Lemma page_ok_one_detect_timer s : page_ok s -> length (detect_timers s) <= 1.
Proof.
  intro H. unfold detect_timers.
  destruct (filter is_detect (timers s)) as [| t0 l] eqn:E; [cbn; lia |].
  rewrite <- E.
  assert (Hcb : forall t, In t (filter is_detect (timers s)) ->
                          In t (timers s) /\ callback t = CbDetectLanguage).
  { intros t Ht. apply filter_In in Ht. destruct Ht as [Ht Hd]. split; [exact Ht |].
    unfold is_detect in Hd. destruct (callback t); try discriminate. reflexivity. }
  assert (H0 : In t0 (filter is_detect (timers s))) by (rewrite E; left; reflexivity).
  apply Hcb in H0. destruct H0 as [H0 H0cb].
  pose proof (ok_detect H t0 H0 H0cb) as Ed.
  apply same_id_at_most_one with (i := timer_id t0).
  - apply filter_timers_distinct, (ok_timer_ids H).
  - intros t Ht. apply Hcb in Ht. destruct Ht as [Ht Htcb].
    pose proof (ok_detect H t Ht Htcb) as Ed'. congruence.
Qed.

(** ** What a firing timer does to the page *)

Lemma page_absorb (r : Res unit) ts : page (absorb r ts) = landing r.
Proof. destruct r; reflexivity. Qed.

Lemma page_launch m a : page (launch m a) = landing (m (page a)).
Proof. apply page_absorb. Qed.

Lemma page_fire a t :
  page (fire a t) = if pending (timer_id t) (page a) then fired (page a) t else page a.
Proof.
  unfold fire. destruct (pending (timer_id t) (page a)); [apply page_launch | reflexivity].
Qed.

Lemma safe_landing A (I : Page -> Prop) (r : Res A) : safe I r -> I (landing r).
Proof. destruct r; cbn; tauto. Qed.

Lemma fired_ok s t : page_ok s -> page_ok (fired s t).
Proof.
  intro H. unfold fired. apply safe_landing.
  pose proof (run_callback_preserves (callback t)).
  assert (Hp : preserves page_ok
                 (modify (clearTimeout (Some (timer_id t)));; run_callback (callback t)))
    by page_solve.
  apply Hp, H.
Qed.

Lemma requests_emit url e s :
  requests url (emit e s) = requests url s ++ (if is_fetch url e then [e] else []).
Proof.
  unfold requests. cbn [effects emit]. rewrite filter_app. cbn.
  destruct (is_fetch url e); reflexivity.
Qed.

(** The handler as the timer starts it: with a text of three code units or
    more the request leaves at once, and that is all that happens before the
    handler suspends. *)
Lemma detectLanguage_landing s :
  landing (detectLanguage s) =
  if (jslength (trim (input_value s)) <? 3)%N
  then assign detectedLangCode (set_textContent (lit "--"))
         (assign detectedLang (set_textContent (lit "Text too short")) s)
  else emit (detect_request (trim (input_value s))) s.
Proof.
  unfold detectLanguage, bind, gets. cbn [bind_res].
  destruct (jslength (trim (input_value s)) <? 3)%N; reflexivity.
Qed.

Lemma fired_unfold s t :
  fired s t = landing (run_callback (callback t) (clearTimeout (Some (timer_id t)) s)).
Proof. reflexivity. Qed.

Lemma alert_dismiss_cases x p :
  (in_document x p = false /\ alert_dismiss x p = p) \/
  (in_document x p = true /\
   alert_dismiss x p = snd (setTimeout (CbAlertRemove x) 300 (animate_out x p))).
Proof. unfold alert_dismiss. destruct (in_document x p); auto. Qed.



(** The timers after a firing: those that were pending under another id,
    and, when an alert's auto-remove has fired on a displayed alert, the
    timer of its removal. *)
Lemma fired_timers_old s t u :
  In u (timers s) -> timer_id u <> timer_id t -> In u (timers (fired s t)).
Proof.
  intros Hu Hne. rewrite fired_unfold.
  assert (Hc : In u (timers (clearTimeout (Some (timer_id t)) s))).
  { cbn. apply filter_In. split; [exact Hu |].
    apply negb_true_iff, Nat.eqb_neq, Hne. }
  generalize dependent (clearTimeout (Some (timer_id t)) s). intros s1 Hc.
  destruct (callback t) as [| | | x | x]; cbn [run_callback].
  - rewrite detectLanguage_landing.
    destruct (jslength (trim (input_value s1)) <? 3)%N; exact Hc.
  - exact Hc.
  - exact Hc.
  - cbn [modify landing].
    destruct (alert_dismiss_cases x s1) as [[_ ->] | [_ ->]]; [exact Hc |].
    cbn. apply in_app_iff. left. exact Hc.
  - exact Hc.
Qed.

Lemma fired_timers_inv s t u :
  In u (timers (fired s t)) ->
  (In u (timers s) /\ timer_id u <> timer_id t) \/
  (exists x, callback t = CbAlertDismiss x /\ in_document x s = true /\
             u = mkTimer (next_timer s) (now s + 300) (CbAlertRemove x)).
Proof.
  rewrite fired_unfold.
  assert (Hc : forall v, In v (timers (clearTimeout (Some (timer_id t)) s)) ->
                         In v (timers s) /\ timer_id v <> timer_id t).
  { intros v Hv. cbn in Hv. apply filter_In in Hv. destruct Hv as [Hv Hne].
    split; [exact Hv |]. apply Nat.eqb_neq, negb_true_iff, Hne. }
  assert (Hdoc : forall x, in_document x (clearTimeout (Some (timer_id t)) s)
                           = in_document x s) by reflexivity.
  assert (Hnt : next_timer (clearTimeout (Some (timer_id t)) s) = next_timer s)
    by reflexivity.
  assert (Hnow : now (clearTimeout (Some (timer_id t)) s) = now s) by reflexivity.
  generalize dependent (clearTimeout (Some (timer_id t)) s). intros s1 Hc Hdoc Hnt Hnow.
  destruct (callback t) as [| | | x | x]; cbn [run_callback].
  - rewrite detectLanguage_landing.
    destruct (jslength (trim (input_value s1)) <? 3)%N; intro Hu; left; apply Hc, Hu.
  - intro Hu. left. apply Hc, Hu.
  - intro Hu. left. apply Hc, Hu.
  - cbn [modify landing].
    destruct (alert_dismiss_cases x s1) as [[_ ->] | [E ->]].
    + intro Hu. left. apply Hc, Hu.
    + cbn. intro Hu. apply in_app_iff in Hu. destruct Hu as [Hu | [<- | []]].
      * left. apply Hc, Hu.
      * right. exists x. rewrite <- Hdoc, Hnt, Hnow. repeat split. exact E.
  - intro Hu. left. apply Hc, Hu.
Qed.

(** What no timer callback touches before it yields. *)
Lemma fired_frame s t :
  now (fired s t) = now s /\
  input_value (fired s t) = input_value s /\
  detectTimeout (fired s t) = detectTimeout s /\
  next_timer s <= next_timer (fired s t).
Proof.
  rewrite fired_unfold.
  assert (H1 : now (clearTimeout (Some (timer_id t)) s) = now s) by reflexivity.
  assert (H2 : input_value (clearTimeout (Some (timer_id t)) s) = input_value s)
    by reflexivity.
  assert (H3 : detectTimeout (clearTimeout (Some (timer_id t)) s) = detectTimeout s)
    by reflexivity.
  assert (H4 : next_timer (clearTimeout (Some (timer_id t)) s) = next_timer s)
    by reflexivity.
  generalize dependent (clearTimeout (Some (timer_id t)) s). intros s1 H1 H2 H3 H4.
  rewrite <- H1, <- H2, <- H3, <- H4.
  destruct (callback t) as [| | | x | x]; cbn [run_callback].
  - rewrite detectLanguage_landing.
    destruct (jslength (trim (input_value s1)) <? 3)%N; repeat split; cbn; lia.
  - repeat split; cbn; lia.
  - repeat split; cbn; lia.
  - cbn [modify landing].
    destruct (alert_dismiss_cases x s1) as [[_ ->] | [_ ->]]; repeat split; cbn; lia.
  - repeat split; cbn; lia.
Qed.

(** Only the detection callback sends to /detect, and only for a text of
    three code units or more. *)
Lemma fired_requests s t :
  requests "/detect" (fired s t) =
  requests "/detect" s ++
  match callback t with
  | CbDetectLanguage =>
      if (jslength (trim (input_value s)) <? 3)%N then []
      else [detect_request (trim (input_value s))]
  | _ => []
  end.
Proof.
  rewrite fired_unfold.
  assert (Hin : input_value (clearTimeout (Some (timer_id t)) s) = input_value s)
    by reflexivity.
  assert (Hrq : requests "/detect" (clearTimeout (Some (timer_id t)) s)
                = requests "/detect" s) by reflexivity.
  generalize dependent (clearTimeout (Some (timer_id t)) s). intros s1 Hin Hrq.
  rewrite <- Hin, <- Hrq.
  destruct (callback t) as [| | | x | x]; cbn [run_callback].
  - rewrite detectLanguage_landing.
    destruct (jslength (trim (input_value s1)) <? 3)%N.
    + rewrite app_nil_r. reflexivity.
    + rewrite requests_emit. reflexivity.
  - unfold auto_play, bind, modify, try_catch, await.
    cbn [bind_res catch_res landing]. rewrite requests_emit. reflexivity.
  - rewrite app_nil_r. reflexivity.
  - rewrite app_nil_r. cbn [modify landing].
    destruct (alert_dismiss_cases x s1) as [[_ ->] | [_ ->]]; reflexivity.
  - rewrite app_nil_r. reflexivity.
Qed.


(** ** A tick of the clock *)

Lemma fold_fire_inv (P : Page -> Prop) (l : list Timer) (a : App) :
  P (page a) ->
  (forall s t, In t l -> P s -> P (fired s t)) ->
  P (page (fold_left fire l a)).
Proof.
  revert a. induction l as [| t l IH]; intros a Ha Hstep; cbn [fold_left]; [exact Ha |].
  apply IH.
  - rewrite page_fire. destruct (pending (timer_id t) (page a)); [| exact Ha].
    apply Hstep; [left; reflexivity | exact Ha].
  - intros s u Hu. apply Hstep. right. exact Hu.
Qed.

Lemma tick_unfold a :
  tick a = fold_left fire (due_now (set_now (now (page a) + 1) (page a)))
                     (mkApp (set_now (now (page a) + 1) (page a)) (tasks a)).
Proof. reflexivity. Qed.

Lemma due_now_In s t : In t (due_now s) <-> In t (timers s) /\ (due t <= now s)%N.
Proof.
  unfold due_now. rewrite filter_In, N.leb_le. reflexivity.
Qed.

Lemma tick_now a : now (page (tick a)) = (now (page a) + 1)%N.
Proof.
  rewrite tick_unfold.
  apply fold_fire_inv with (P := fun s => now s = (now (page a) + 1)%N); [reflexivity |].
  intros s t _ Hs. destruct (fired_frame s t) as (-> & _). exact Hs.
Qed.

Lemma wait_now n a : now (page (wait n a)) = (now (page a) + n)%N.
Proof.
  induction n as [| n IH] using N.peano_ind.
  - cbn. lia.
  - rewrite wait_succ, tick_now, IH. lia.
Qed.

Lemma NoDup_map_inj A B (f : A -> B) (l : list A) x y :
  NoDup (map f l) -> In x l -> In y l -> f x = f y -> x = y.
Proof.
  induction l as [| z l IH]; cbn; intros Hnd Hx Hy E; [contradiction |].
  inversion Hnd as [| ? ? Hz Hl]; subst.
  destruct Hx as [-> | Hx], Hy as [-> | Hy]; auto.
  - exfalso. apply Hz. rewrite E. apply in_map, Hy.
  - exfalso. apply Hz. rewrite <- E. apply in_map, Hx.
Qed.

Lemma NoDup_map_split A B (f : A -> B) (l1 l2 : list A) d t :
  NoDup (map f (l1 ++ d :: l2)) -> In t l1 \/ In t l2 -> f t <> f d.
Proof.
  rewrite map_app. cbn [map]. intros Hnd Ht E.
  apply NoDup_remove_2 in Hnd. apply Hnd. rewrite <- E.
  apply in_app_iff. destruct Ht as [Ht | Ht]; [left | right]; apply in_map, Ht.
Qed.

Lemma pending_In s t : In t (timers s) -> pending (timer_id t) s = true.
Proof.
  intro H. apply existsb_exists. exists t. split; [exact H | apply Nat.eqb_refl].
Qed.

(** ** The debounce, tick by tick *)

(** A callback other than detectLanguage, fired under another id, leaves an
    armed debounce armed. *)
Lemma fired_armed d v R s t :
  timer_id t <> timer_id d -> callback t <> CbDetectLanguage ->
  armed d v R s -> armed d v R (fired s t).
Proof.
  intros Hid Hcb (Hok & Hv & Hd & HR).
  destruct (fired_frame s t) as (_ & Hin & _).
  split; [apply fired_ok, Hok |]. split; [congruence |].
  split; [apply fired_timers_old; [exact Hd | congruence] |].
  rewrite fired_requests, HR. destruct (callback t); try apply app_nil_r. congruence.
Qed.

Lemma fired_quiet v R s t :
  callback t <> CbDetectLanguage -> quiet v R s -> quiet v R (fired s t).
Proof.
  intros Hcb (Hok & Hv & Hnone & HR).
  destruct (fired_frame s t) as (_ & Hin & _).
  split; [apply fired_ok, Hok |]. split; [congruence |]. split.
  - intros u Hu. apply fired_timers_inv in Hu.
    destruct Hu as [[Hu _] | (x & _ & _ & ->)]; [apply Hnone, Hu | discriminate].
  - rewrite fired_requests, HR. destruct (callback t); try apply app_nil_r. congruence.
Qed.

(** The detection timer fires: the text in the box, trimmed, goes to
    /detect, and no detection timer is left. *)
Lemma fired_detect d v R s :
  callback d = CbDetectLanguage -> (3 <= jslength (trim v))%N ->
  armed d v R s -> quiet v (R ++ [detect_request (trim v)]) (fired s d).
Proof.
  intros Hcb Hlen (Hok & Hv & Hd & HR).
  destruct (fired_frame s d) as (_ & Hin & _).
  split; [apply fired_ok, Hok |]. split; [congruence |]. split.
  - intros u Hu Hucb. apply fired_timers_inv in Hu.
    destruct Hu as [[Hu Hne] | (x & E & _)]; [| congruence].
    pose proof (ok_detect Hok u Hu Hucb) as E1.
    pose proof (ok_detect Hok d Hd Hcb) as E2. congruence.
  - rewrite fired_requests, HR, Hcb, Hv.
    apply N.ltb_ge in Hlen. rewrite Hlen. reflexivity.
Qed.

Lemma set_now_armed d v R n s : armed d v R s -> armed d v R (set_now n s).
Proof. intros (Hok & Hv & Hd & HR). split; [apply set_now_ok, Hok | auto]. Qed.

Lemma set_now_quiet v R n s : quiet v R s -> quiet v R (set_now n s).
Proof. intros (Hok & Hv & Hd & HR). split; [apply set_now_ok, Hok | auto]. Qed.

(** The timers that fire together with, or instead of, the detection
    timer are other timers. *)
Lemma armed_others d v R s t :
  callback d = CbDetectLanguage -> armed d v R s ->
  In t (timers s) -> t <> d ->
  timer_id t <> timer_id d /\ callback t <> CbDetectLanguage.
Proof.
  intros Hcb (Hok & _ & Hd & _) Ht Hne.
  assert (Hid : timer_id t <> timer_id d).
  { intro E. apply Hne. exact (NoDup_map_inj timer_id _ _ _ (ok_timer_ids Hok) Ht Hd E). }
  split; [exact Hid |]. intro Htcb.
  pose proof (ok_detect Hok t Ht Htcb) as E1.
  pose proof (ok_detect Hok d Hd Hcb) as E2. congruence.
Qed.

Lemma tick_armed_early a d v R :
  callback d = CbDetectLanguage -> (now (page a) + 1 < due d)%N ->
  armed d v R (page a) -> armed d v R (page (tick a)).
Proof.
  intros Hcb Hdue Harmed. rewrite tick_unfold.
  set (s1 := set_now (now (page a) + 1) (page a)).
  assert (H1 : armed d v R s1) by (apply set_now_armed, Harmed).
  apply fold_fire_inv; [exact H1 |].
  intros s t Ht Hs. apply due_now_In in Ht. destruct Ht as [Ht Htdue].
  assert (Hne : t <> d).
  { intros ->. change (now s1) with (now (page a) + 1)%N in Htdue. lia. }
  destruct (armed_others Hcb H1 Ht Hne) as [Hid Htcb].
  apply fired_armed; assumption.
Qed.

Lemma tick_quiet a v R : quiet v R (page a) -> quiet v R (page (tick a)).
Proof.
  intro Hq. rewrite tick_unfold.
  set (s1 := set_now (now (page a) + 1) (page a)).
  assert (H1 : quiet v R s1) by (apply set_now_quiet, Hq).
  apply fold_fire_inv; [exact H1 |].
  intros s t Ht Hs. apply due_now_In in Ht. destruct Ht as [Ht _].
  apply fired_quiet; [| exact Hs].
  destruct H1 as (_ & _ & Hnone & _). apply Hnone, Ht.
Qed.

Lemma tick_armed_due a d v R :
  callback d = CbDetectLanguage -> (due d <= now (page a) + 1)%N ->
  (3 <= jslength (trim v))%N ->
  armed d v R (page a) ->
  quiet v (R ++ [detect_request (trim v)]) (page (tick a)).
Proof.
  intros Hcb Hdue Hlen Harmed. rewrite tick_unfold.
  set (s1 := set_now (now (page a) + 1) (page a)).
  assert (H1 : armed d v R s1) by (apply set_now_armed, Harmed).
  assert (Hd : In d (due_now s1)).
  { apply due_now_In. split; [apply H1 | exact Hdue]. }
  destruct (in_split _ _ Hd) as (l1 & l2 & El).
  assert (Hnd : NoDup (map timer_id (due_now s1))).
  { apply filter_timers_distinct. destruct H1 as (Hok & _). apply (ok_timer_ids Hok). }
  assert (Hother : forall t, In t l1 \/ In t l2 ->
                             timer_id t <> timer_id d /\ callback t <> CbDetectLanguage).
  { intros t Ht.
    assert (Hid : timer_id t <> timer_id d).
    { rewrite El in Hnd. exact (NoDup_map_split timer_id l1 l2 d t Hnd Ht). }
    assert (Hin : In t (timers s1)).
    { assert (In t (due_now s1)) as Hd'.
      { rewrite El. apply in_app_iff. destruct Ht; [left | right; right]; assumption. }
      apply due_now_In in Hd'. apply Hd'. }
    apply (armed_others Hcb H1 Hin). intros ->. apply Hid. reflexivity. }
  rewrite El, fold_left_app. cbn [fold_left].
  apply fold_fire_inv.
  - rewrite page_fire.
    assert (H2 : armed d v R (page (fold_left fire l1 (mkApp s1 (tasks a))))).
    { apply fold_fire_inv; [exact H1 |].
      intros s t Ht Hs. destruct (Hother t (or_introl Ht)). apply fired_armed; assumption. }
    rewrite pending_In by apply H2.
    apply fired_detect; assumption.
  - intros s t Ht Hs. destruct (Hother t (or_intror Ht)). apply fired_quiet; assumption.
Qed.

(** ** The debounce along a burst of edits *)

Lemma no_detect_filter (l : list Timer) :
  (forall t, In t l -> callback t <> CbDetectLanguage) -> filter is_detect l = [].
Proof.
  intro H. induction l as [| t l IH]; [reflexivity |].
  cbn. unfold is_detect at 1.
  pose proof (H t (or_introl eq_refl)) as Ht.
  destruct (callback t); try congruence; apply IH; intros u Hu; apply H; right; exact Hu.
Qed.

Lemma input_page a v :
  page (handle (EInput v) a) = dispatch_input (assign inputText (set_value v) (page a)).
Proof. reflexivity. Qed.

(** One edit: whatever detection timer was pending is cancelled; a text of
    three code units or more, trimmed, arms a new one 1500 ms ahead, a
    shorter one arms none.  Nothing is sent. *)
Lemma input_event a v :
  page_ok (page a) ->
  let s' := page (handle (EInput v) a) in
  let d := mkTimer (next_timer (page a)) (now (page a) + 1500) CbDetectLanguage in
  now s' = now (page a) /\
  if (3 <=? jslength (trim v))%N
  then armed d v (requests "/detect" (page a)) s' /\ detect_timers s' = [d]
  else quiet v (requests "/detect" (page a)) s' /\ detect_timers s' = [].
Proof.
  intros Hok s' d.
  assert (Hok' : page_ok s').
  { unfold s'. rewrite input_page. apply dispatch_input_ok, assign_ok, Hok. }
  unfold s' in *. rewrite input_page in *. clear s'.
  set (s2 := on_input_counter (assign inputText (set_value v) (page a))) in *.
  assert (Hok2 : page_ok s2) by (apply on_input_counter_ok, assign_ok, Hok).
  assert (Hv : input_value s2 = v) by reflexivity.
  assert (Hnow : now s2 = now (page a)) by reflexivity.
  assert (Hnt : next_timer s2 = next_timer (page a)) by reflexivity.
  assert (HR : requests "/detect" s2 = requests "/detect" (page a)) by reflexivity.
  unfold dispatch_input in *. fold s2 in Hok' |- *.
  clearbody s2. unfold d. rewrite <- Hnow, <- Hnt, <- HR. clear Hnow Hnt HR d.
  pose proof (fun t => @cleared_no_detect s2 t Hok2) as Hnone.
  unfold on_input_detect in *.
  set (s3 := clearTimeout (detectTimeout s2) s2) in *.
  assert (Hv3 : input_value s3 = v) by (unfold s3; destruct (detectTimeout s2); exact Hv).
  assert (Hnow3 : now s3 = now s2) by (unfold s3; destruct (detectTimeout s2); reflexivity).
  assert (Hnt3 : next_timer s3 = next_timer s2)
    by (unfold s3; destruct (detectTimeout s2); reflexivity).
  assert (HR3 : requests "/detect" s3 = requests "/detect" s2)
    by (unfold s3; destruct (detectTimeout s2); reflexivity).
  clearbody s3. rewrite <- Hnow3, <- Hnt3, <- HR3. rewrite Hv3 in *.
  destruct (3 <=? jslength (trim v))%N.
  - cbn [setTimeout]. split; [reflexivity |]. split.
    + split; [exact Hok' |]. split; [exact Hv3 |]. split; [| reflexivity].
      cbn. apply in_app_iff. right. left. reflexivity.
    + unfold detect_timers. cbn. rewrite filter_app, (no_detect_filter _ Hnone). reflexivity.
  - split; [reflexivity |]. split.
    + split; [exact Hok' |]. split; [exact Hv3 |]. split; [exact Hnone | reflexivity].
    + apply no_detect_filter, Hnone.
Qed.

Lemma wait_armed_early n a d v R :
  callback d = CbDetectLanguage -> (now (page a) + n < due d)%N ->
  armed d v R (page a) -> armed d v R (page (wait n a)).
Proof.
  intros Hcb. induction n as [| n IH] using N.peano_ind; intros Hdue Harmed; [exact Harmed |].
  rewrite wait_succ.
  apply tick_armed_early; [exact Hcb | rewrite wait_now; lia | apply IH; [lia | exact Harmed]].
Qed.

Lemma wait_quiet n a v R : quiet v R (page a) -> quiet v R (page (wait n a)).
Proof.
  intro H. induction n as [| n IH] using N.peano_ind; [exact H |].
  rewrite wait_succ. apply tick_quiet, IH.
Qed.

Lemma wait_armed_due n a d v R :
  callback d = CbDetectLanguage -> due d = (now (page a) + N.succ n)%N ->
  (3 <= jslength (trim v))%N ->
  armed d v R (page a) ->
  quiet v (R ++ [detect_request (trim v)]) (page (wait (N.succ n) a)).
Proof.
  intros Hcb Hdue Hlen Harmed.
  rewrite wait_succ.
  apply tick_armed_due with (d := d); [exact Hcb | rewrite wait_now; lia | exact Hlen |].
  apply wait_armed_early; [exact Hcb | lia | exact Harmed].
Qed.

(** An edit followed by a pause shorter than the quiet period sends
    nothing. *)
Lemma edit_then_pause a v p :
  (p < 1500)%N -> app_safe page_ok a ->
  requests "/detect" (page (wait p (handle (EInput v) a))) = requests "/detect" (page a).
Proof.
  intros Hp Ha.
  destruct (input_event a v (proj1 Ha)) as (Hnow & H).
  destruct (3 <=? jslength (trim v))%N.
  - destruct H as [H _].
    apply wait_armed_early with (n := p) in H; [apply H | reflexivity |].
    cbn [due]. rewrite Hnow. lia.
  - destruct H as [H _]. apply wait_quiet with (n := p) in H. apply H.
Qed.

Lemma typing_sends_nothing burst a :
  Forall (fun e => (snd e < 1500)%N) burst -> app_safe page_ok a ->
  app_safe page_ok (typing burst a) /\
  requests "/detect" (page (typing burst a)) = requests "/detect" (page a).
Proof.
  intro Hb. revert a. induction Hb as [| [v p] burst Hp _ IH]; intros a Ha; cbn [typing].
  - split; [exact Ha | reflexivity].
  - cbn in Hp.
    assert (Ha' : app_safe page_ok (wait p (handle (EInput v) a)))
      by (apply wait_safe, handle_safe, Ha).
    destruct (IH _ Ha') as [Hs HR]. split; [exact Hs |].
    rewrite HR. apply edit_then_pause; assumption.
Qed.

(** C4.  From a freshly loaded page, in every state the event loop can
    reach: at most one detection timer is pending; an edit leaves exactly
    the timer it arms, 1500 ms ahead, or none when the trimmed text is
    shorter than 3; and after a burst of edits, each less than 1500 ms after
    the one before, nothing is sent to /detect until 1500 ms after the last
    edit, when exactly one request is sent, carrying the last text, trimmed
    (none when that is shorter than 3). *)
Theorem debounce_one_timer_last_text (s0 : Page) (a : App) :
  fresh s0 -> reachable (mkApp s0 []) a ->
  length (detect_timers (page a)) <= 1 /\
  (forall v,
      detect_timers (page (handle (EInput v) a)) =
      if (3 <=? jslength (trim v))%N
      then [mkTimer (next_timer (page a)) (now (page a) + 1500) CbDetectLanguage]
      else []) /\
  (forall burst v,
      Forall (fun e => (snd e < 1500)%N) burst ->
      let a1 := handle (EInput v) (typing burst a) in
      (forall n, (n < 1500)%N ->
                 requests "/detect" (page (wait n a1)) = requests "/detect" (page a)) /\
      requests "/detect" (page (wait 1500 a1)) =
      requests "/detect" (page a) ++
      (if (3 <=? jslength (trim v))%N then [detect_request (trim v)] else [])).
Proof.
  intros Hfresh Hreach.
  pose proof (reachable_safe (loaded_safe Hfresh) Hreach) as Ha.
  split; [apply page_ok_one_detect_timer, Ha |]. split.
  - intro v. destruct (input_event a v (proj1 Ha)) as (_ & H).
    destruct (3 <=? jslength (trim v))%N; apply H.
  - intros burst v Hb a1.
    destruct (typing_sends_nothing Hb Ha) as [Hs HR].
    split.
    + intros n Hn. unfold a1. rewrite edit_then_pause; assumption.
    + unfold a1. destruct (input_event (typing burst a) v (proj1 Hs)) as (Hnow & H).
      rewrite HR in H.
      destruct (3 <=? jslength (trim v))%N eqn:Elen.
      * destruct H as [H _]. apply N.leb_le in Elen.
        apply wait_armed_due with (n := 1499%N) in H; [apply H | reflexivity | | exact Elen].
        cbn [due]. rewrite Hnow. lia.
      * destruct H as [H _]. apply wait_quiet with (n := 1500%N) in H.
        rewrite app_nil_r. apply H.
Qed.

(** ** The life of an alert, tick by tick *)



Lemma fired_leaving r s t :
  timer_id t <> timer_id r -> leaving r s -> leaving r (fired s t).
Proof.
  intros Hid (Hok & Hr). split; [apply fired_ok, Hok |].
  apply fired_timers_old; [exact Hr | congruence].
Qed.




Lemma set_now_leaving r n s : leaving r s -> leaving r (set_now n s).
Proof. intros (Hok & H). split; [apply set_now_ok, Hok | exact H]. Qed.


Lemma tick_leaving a r :
  (now (page a) + 1 < due r)%N -> leaving r (page a) -> leaving r (page (tick a)).
Proof.
  intros Hdue Hl. rewrite tick_unfold.
  set (s1 := set_now (now (page a) + 1) (page a)).
  assert (H1 : leaving r s1) by (apply set_now_leaving, Hl).
  apply fold_fire_inv; [exact H1 |].
  intros s t Ht Hs. apply due_now_In in Ht. destruct Ht as [Ht Htdue].
  assert (Hne : t <> r).
  { intros ->. change (now s1) with (now (page a) + 1)%N in Htdue. lia. }
  destruct H1 as (Hok1 & Hr1).
  apply fired_leaving; [| exact Hs].
  intro E. apply Hne. exact (NoDup_map_inj timer_id _ _ _ (ok_timer_ids Hok1) Ht Hr1 E).
Qed.





Lemma wait_leaving n a r :
  (now (page a) + n < due r)%N -> leaving r (page a) ->
  leaving r (page (wait n a)).
Proof.
  induction n as [| n IH] using N.peano_ind; intros Hdue Hs; [exact Hs |].
  rewrite wait_succ.
  apply tick_leaving; [rewrite wait_now; lia | apply IH; [lia | exact Hs]].
Qed.





(** ** An alert without its close button *)







(** ** The timers at work on a page *)

Lemma sample_fresh : fresh (sample_page []).
Proof. repeat split. Qed.

(** Four edits in quick succession, then quiet: one request, for "hello". *)
Lemma debounce_one_timer_last_text_witness :
  let a := mkApp (sample_page []) [] in
  fresh (sample_page []) /\ reachable a a /\
  requests "/detect"
    (page (wait 1500 (handle (EInput (lit "hello "))
                        (typing [(lit "h", 80%N); (lit "hel", 120%N); (lit "hell", 90%N)] a))))
  = [detect_request (lit "hello")].
Proof.
  intro a.
  assert (Hr : reachable a a) by constructor.
  assert (Hb : Forall (fun e : jsstring * N => (snd e < 1500)%N)
                 [(lit "h", 80%N); (lit "hel", 120%N); (lit "hell", 90%N)])
    by (repeat constructor).
  split; [exact sample_fresh |]. split; [exact Hr |].
  exact (proj2 (proj2 (proj2 (debounce_one_timer_last_text sample_fresh Hr))
                  [(lit "h", 80%N); (lit "hel", 120%N); (lit "hell", 90%N)]
                  (lit "hello ") Hb)).
Defined.


(** ** Two more runs *)

(** The body of the response is [null]: reading [data.success] throws, the
    catch block reports it, and the finally block still runs. *)
Example translate_null_body :
  let s' := snd (run_alone (server_says JNull) (translate (sample_page (lit "Hello")))) in
  map className (alerts s') = [lit "alert alert-error"] /\
  disabled (dom s' translateBtn) = false /\
  innerHTML (dom s' translateBtn) = translate_idle_label /\
  currentTranslation s' = JStr [].
Proof. repeat split. Qed.

(** The server refuses "Hello" with the error text <textarea>: the
    notification is in the document and no timer is pending for it. *)
Example translate_failure_hides_close_button :
  let data := JObj [(lit "success", JBool false); (lit "error", JStr (lit "<textarea>"))] in
  let s' := snd (run_alone (server_says data) (translate (sample_page (lit "Hello")))) in
  alerts s' = [notification 0 "error" (lit "Translation failed: <textarea>")] /\
  timers s' = [] /\
  disabled (dom s' translateBtn) = false.
Proof. repeat split. Qed.

(** The scenario of the specification: "Hello", target fr, and the server
    answers with "Bonjour". *)
Example translate_hello_bonjour :
  let s' := snd (run_alone (server_says bonjour) (translate (sample_page (lit "Hello")))) in
  currentTranslation s' = JStr (lit "Bonjour") /\
  innerHTML (dom s' outputText) = result_markup (lit "English") (lit "French") (lit "Bonjour") /\
  textContent (dom s' detectedLang) = lit "English" /\
  textContent (dom s' detectedLangCode) = lit "en" /\
  textContent (dom s' targetLangName) = lit "French" /\
  textContent (dom s' targetLangCode) = lit "fr" /\
  disabled (dom s' speakBtn) = false /\
  disabled (dom s' copyBtn) = false /\
  disabled (dom s' downloadBtn) = false /\
  display (dom s' audioPlayer) = lit "none".
Proof. repeat split. Qed.

(** Translate, listen, translate again: the player shown for the first
    translation is hidden by the second. *)
Example audio_hidden_by_new_translation :
  let audio := JObj [(lit "success", JBool true); (lit "audio_url", JStr (lit "/a.mp3"))] in
  let s1 := snd (run_alone (server_says bonjour) (translate (sample_page (lit "Hello")))) in
  let s2 := snd (run_alone (server_says audio) (generateSpeech s1)) in
  let s3 := snd (run_alone (server_says bonjour) (translate s2)) in
  display (dom s2 audioPlayer) = lit "flex" /\
  src (dom s2 audioElement) = lit "/a.mp3" /\
  display (dom s3 audioPlayer) = lit "none".
Proof. repeat split. Qed.

(** * Further properties of the script *)

(** ** Trimming *)

Lemma trimStart_split (s : jsstring) :
  exists w, s = w ++ trimStart s /\ all_space w.
Proof.
  induction s as [| c r (w & E & Hw)]; cbn [trimStart].
  - exists []. split; [reflexivity | intros ? []].
  - destruct (is_js_space c) eqn:Ec.
    + exists (c :: w). split; [cbn; congruence |].
      intros x [<- | Hx]; [exact Ec | apply Hw, Hx].
    + exists []. split; [reflexivity | intros ? []].
Qed.

Lemma trimStart_head (s : jsstring) c r : trimStart s = c :: r -> is_js_space c = false.
Proof.
  induction s as [| x s IH]; cbn [trimStart]; [discriminate |].
  destruct (is_js_space x) eqn:Ex; [exact IH |].
  intros [= <- _]. exact Ex.
Qed.

Lemma trimEnd_split (s : jsstring) :
  exists w, s = trimEnd s ++ w /\ all_space w.
Proof.
  unfold trimEnd. destruct (trimStart_split (rev s)) as (w & E & Hw).
  exists (rev w). split.
  - rewrite <- rev_app_distr, <- E, rev_involutive. reflexivity.
  - intros c Hc. apply Hw, in_rev, Hc.
Qed.

Lemma trimEnd_last (s : jsstring) r c : trimEnd s = r ++ [c] -> is_js_space c = false.
Proof.
  unfold trimEnd. intro E.
  apply (f_equal (@rev N)) in E. rewrite rev_involutive, rev_app_distr in E. cbn in E.
  exact (trimStart_head _ E).
Qed.

(** [trim] cuts a run of white space off each end and nothing else; what
    is left neither starts nor ends with white space. *)
Lemma trim_split (s : jsstring) :
  exists w1 w2, s = w1 ++ trim s ++ w2 /\ all_space w1 /\ all_space w2.
Proof.
  destruct (trimStart_split s) as (w1 & E1 & H1).
  destruct (trimEnd_split (trimStart s)) as (w2 & E2 & H2).
  exists w1, w2. unfold trim. rewrite <- E2. auto.
Qed.

Lemma trim_length (s : jsstring) : (jslength (trim s) <= jslength s)%N.
Proof.
  destruct (trim_split s) as (w1 & w2 & E & _).
  unfold jslength. rewrite E at 2. rewrite !length_app. lia.
Qed.

Lemma trim_first (s : jsstring) c r : trim s = c :: r -> is_js_space c = false.
Proof.
  unfold trim. intro E.
  destruct (trimEnd_split (trimStart s)) as (w & Ew & _).
  rewrite E in Ew. cbn in Ew. exact (trimStart_head s Ew).
Qed.

Lemma trim_final (s : jsstring) r c : trim s = r ++ [c] -> is_js_space c = false.
Proof. unfold trim. apply trimEnd_last. Qed.

(** ** What translate sends *)



(** X2.  A text of at most 5000 code units that is not all white space is
    accepted: the control goes busy and one request leaves for /translate,
    whose body has exactly the members [text], the trimmed text - which has
    no white space at either end - and [target_lang], the dropdown's
    value. *)
Theorem translate_sends_trimmed_text (s : Page) :
  (jslength (input_value s) <= 5000)%N -> trim (input_value s) <> [] ->
  (exists s1,
      suspended_on (translate s) = Some s1 /\
      effects s1 = effects s ++
        [Fetched (lit "/translate")
           (JObj [(lit "text", JStr (trim (input_value s)));
                  (lit "target_lang", JStr (select_value (targetLang s)))])] /\
      disabled (dom s1 translateBtn) = true /\
      innerHTML (dom s1 translateBtn) = busy_markup ActTranslate) /\
  (forall c r, trim (input_value s) = c :: r -> is_js_space c = false) /\
  (forall r c, trim (input_value s) = r ++ [c] -> is_js_space c = false).
Proof.
  intros Hlen Hne.
  assert (Hacc : translate_accepts s).
  { split; [exact Hne |]. pose proof (trim_length (input_value s)). lia. }
  split; [| split].
  - rewrite (translate_accepted Hacc). eexists. split; [reflexivity |]. repeat split.
  - apply trim_first.
  - apply trim_final.
Qed.

Lemma translate_sends_trimmed_text_witness :
  let s := sample_page (lit "  Good morning ") in
  (jslength (input_value s) <= 5000)%N /\ trim (input_value s) <> [] /\
  exists s1,
    suspended_on (translate s) = Some s1 /\
    effects s1 = [Fetched (lit "/translate")
                    (JObj [(lit "text", JStr (lit "Good morning"));
                           (lit "target_lang", JStr (lit "fr"))])] /\
    disabled (dom s1 translateBtn) = true /\
    innerHTML (dom s1 translateBtn)
    = lit "<i class=" ++ [34%N] ++ lit "fas fa-spinner fa-spin" ++ [34%N]
      ++ lit "></i> Translating...".
Proof.
  intro s.
  assert (H1 : (jslength (input_value s) <= 5000)%N) by (vm_compute; discriminate).
  assert (H2 : trim (input_value s) <> []) by discriminate.
  split; [exact H1 |]. split; [exact H2 |].
  exact (proj1 (translate_sends_trimmed_text s H1 H2)).
Defined.

(** ** Failures of translate and of generateSpeech *)








(** ** A successful synthesis *)




(** ** A successful detection *)





(** A language whose markup hides the close button: the display is
    updated and the user is told that detection failed. *)
Example detect_success_reported_as_failure :
  let data := JObj [(lit "success", JBool true); (lit "language", JStr (lit "<textarea>"));
                    (lit "code", JStr (lit "en"))] in
  let r := run_alone (server_says data) (detectLanguage (sample_page (lit "Hello"))) in
  fst r = Normal tt /\
  textContent (dom (snd r) detectedLang) = lit "<textarea>" /\
  alerts (snd r) = [notification 1 "error" (lit "Language detection failed")].
Proof. repeat split. Qed.

(** ** Copy *)



(** ** Resuming the handler that suspended last *)

(** Resuming the last handler is a step of the event loop when the
    environment settles promises as they can settle. *)
Lemma resume_last_step env a :
  (forall X (p : Awaited X), may_settle p (env X p)) ->
  tasks a <> [] -> step a (resume_last env a).
Proof.
  intros Henv Hne. unfold resume_last.
  destruct (rev (tasks a)) as [| [X p k] earlier] eqn:E.
  - exfalso. apply Hne. rewrite <- (rev_involutive (tasks a)), E. reflexivity.
  - assert (Ets : tasks a = rev earlier ++ mkTask p k :: []).
    { rewrite <- (rev_involutive (tasks a)), E. reflexivity. }
    destruct a as [s ts]. cbn [tasks page] in *. subst ts.
    rewrite <- (app_nil_r (rev earlier)) at 2.
    apply step_settle. apply Henv.
Qed.

(** "Hello" has been translated to "Bonjour" on the sample page: a state
    the event loop reaches in three steps. *)
Lemma translated_reachable :
  reachable (mkApp (sample_page []) [])
    (resume_last (server_says bonjour)
       (resume_last (server_says bonjour)
          (handle ECtrlEnter (handle (EInput (lit "Hello")) (mkApp (sample_page []) []))))).
Proof.
  set (a0 := mkApp (sample_page []) []).
  set (a1 := handle (EInput (lit "Hello")) a0).
  set (a2 := handle ECtrlEnter a1).
  set (a3 := resume_last (server_says bonjour) a2).
  assert (Hne : forall a, length (tasks a) = 1 -> tasks a <> []).
  { intros a Hlen Hnil. rewrite Hnil in Hlen. discriminate Hlen. }
  apply reach_step with (a := a3).
  - apply reach_step with (a := a2).
    + apply reach_step with (a := a1).
      * apply reach_step with (a := a0); [apply reach_init | apply step_event].
      * apply step_event.
    + apply resume_last_step; [apply server_says_may_settle |].
      apply Hne. vm_compute. reflexivity.
  - apply resume_last_step; [apply server_says_may_settle |].
    apply Hne. vm_compute. reflexivity.
Qed.

(** ** Timers that come due *)

Lemma tick_keeps (P : Page -> Prop) a :
  (forall s n, P s -> P (set_now n s)) ->
  (forall s t, P s -> P (fired s t)) ->
  P (page a) -> P (page (tick a)).
Proof.
  intros Hnow Hfired H. rewrite tick_unfold.
  apply fold_fire_inv; [apply Hnow, H |]. intros s t _. apply Hfired.
Qed.

Lemma wait_keeps (P : Page -> Prop) n a :
  (forall s n, P s -> P (set_now n s)) ->
  (forall s t, P s -> P (fired s t)) ->
  P (page a) -> P (page (wait n a)).
Proof.
  intros Hnow Hfired H. induction n as [| n IH] using N.peano_ind; [exact H |].
  rewrite wait_succ. apply tick_keeps; assumption.
Qed.

(** The timer [r] comes due in this tick: what its callback establishes
    from [Pre], and every callback keeps, holds after the tick. *)
Lemma tick_fires (Pre Post : Page -> Prop) a r :
  leaving r (page a) -> (due r <= now (page a) + 1)%N ->
  (forall s n, Pre s -> Pre (set_now n s)) ->
  (forall s t, Pre s -> Pre (fired s t)) ->
  (forall s, leaving r s -> Pre s -> Post (fired s r)) ->
  (forall s t, Post s -> Post (fired s t)) ->
  Pre (page a) -> Post (page (tick a)).
Proof.
  intros Hl Hdue Hnow Hpre Hfire Hpost H. rewrite tick_unfold.
  set (s1 := set_now (now (page a) + 1) (page a)).
  assert (H1 : leaving r s1) by (apply set_now_leaving, Hl).
  assert (Hr : In r (due_now s1)).
  { apply due_now_In. split; [apply H1 | exact Hdue]. }
  destruct (in_split _ _ Hr) as (l1 & l2 & El).
  assert (Hnd : NoDup (map timer_id (due_now s1))).
  { apply filter_timers_distinct. destruct H1 as (Hok & _). apply (ok_timer_ids Hok). }
  rewrite El in Hnd. rewrite El, fold_left_app. cbn [fold_left].
  apply fold_fire_inv.
  - rewrite page_fire.
    assert (H2 : leaving r (page (fold_left fire l1 (mkApp s1 (tasks a)))) /\
                 Pre (page (fold_left fire l1 (mkApp s1 (tasks a))))).
    { apply fold_fire_inv with (P := fun s => leaving r s /\ Pre s).
      - split; [exact H1 | apply Hnow, H].
      - intros s t Ht [Hls Hps]. split; [| apply Hpre, Hps].
        apply fired_leaving; [| exact Hls].
        exact (NoDup_map_split timer_id l1 l2 r t Hnd (or_introl Ht)). }
    destruct H2 as [H2 H3]. rewrite pending_In by apply H2.
    apply Hfire; assumption.
  - intros s t _. apply Hpost.
Qed.

Lemma wait_fires (Pre Post : Page -> Prop) n a r :
  leaving r (page a) -> due r = (now (page a) + N.succ n)%N ->
  (forall s n, Pre s -> Pre (set_now n s)) ->
  (forall s t, Pre s -> Pre (fired s t)) ->
  (forall s, leaving r s -> Pre s -> Post (fired s r)) ->
  (forall s t, Post s -> Post (fired s t)) ->
  Pre (page a) -> Post (page (wait (N.succ n) a)).
Proof.
  intros Hl Hdue Hnow Hpre Hfire Hpost H. rewrite wait_succ.
  apply tick_fires with (Pre := Pre) (r := r); try assumption.
  - apply wait_leaving; [lia | exact Hl].
  - rewrite wait_now. lia.
  - apply wait_keeps; assumption.
Qed.


(** Apart from the copy control and the detection display, no timer
    callback touches an element. *)
Lemma fired_dom_untouched s t el :
  el <> copyBtn -> el <> detectedLang -> el <> detectedLangCode ->
  dom (fired s t) el = dom s el.
Proof.
  intros H1 H2 H3. rewrite fired_unfold.
  assert (Hd : dom (clearTimeout (Some (timer_id t)) s) = dom s) by reflexivity.
  generalize dependent (clearTimeout (Some (timer_id t)) s). intros s1 Hd.
  rewrite <- Hd.
  destruct (callback t) as [| | | x | x]; cbn [run_callback].
  - rewrite detectLanguage_landing.
    destruct (jslength (trim (input_value s1)) <? 3)%N; [| reflexivity].
    destruct el; try reflexivity; [contradiction H2 | contradiction H3]; reflexivity.
  - reflexivity.
  - destruct el; try reflexivity. contradiction H1; reflexivity.
  - cbn [modify landing].
    destruct (alert_dismiss_cases x s1) as [[_ ->] | [_ ->]]; reflexivity.
  - reflexivity.
Qed.

(** Callbacks other than detectLanguage leave every element but the copy
    control alone. *)
Lemma fired_display_kept s t el :
  callback t <> CbDetectLanguage -> el <> copyBtn ->
  dom (fired s t) el = dom s el.
Proof.
  intros Hcb Hel. rewrite fired_unfold.
  assert (Hd : dom (clearTimeout (Some (timer_id t)) s) = dom s) by reflexivity.
  generalize dependent (clearTimeout (Some (timer_id t)) s). intros s1 Hd.
  rewrite <- Hd.
  destruct (callback t) as [| | | x | x]; cbn [run_callback]; try reflexivity.
  - contradiction Hcb; reflexivity.
  - destruct el; try reflexivity. contradiction Hel; reflexivity.
  - cbn [modify landing].
    destruct (alert_dismiss_cases x s1) as [[_ ->] | [_ ->]]; reflexivity.
Qed.

Lemma plays_emit e s : plays (emit e s) = plays s + (if is_play e then 1 else 0).
Proof.
  unfold plays. cbn [effects emit]. rewrite filter_app, length_app. cbn.
  destruct (is_play e); reflexivity.
Qed.

Lemma fired_plays s t :
  plays (fired s t) = plays s + match callback t with CbAutoPlay => 1 | _ => 0 end.
Proof.
  rewrite fired_unfold.
  assert (Hp : plays (clearTimeout (Some (timer_id t)) s) = plays s) by reflexivity.
  generalize dependent (clearTimeout (Some (timer_id t)) s). intros s1 Hp.
  rewrite <- Hp.
  destruct (callback t) as [| | | x | x]; cbn [run_callback].
  - rewrite detectLanguage_landing.
    destruct (jslength (trim (input_value s1)) <? 3)%N.
    + apply plus_n_O.
    + rewrite plays_emit. reflexivity.
  - unfold auto_play, bind, modify, try_catch, await.
    cbn [bind_res catch_res landing]. rewrite plays_emit. reflexivity.
  - apply plus_n_O.
  - cbn [modify landing].
    destruct (alert_dismiss_cases x s1) as [[_ ->] | [_ ->]]; apply plus_n_O.
  - apply plus_n_O.
Qed.

Lemma run_alone_safe A (I : Page -> Prop) env (r : Res A) :
  safe I r -> I (snd (run_alone env r)).
Proof.
  induction r as [o s | X p s k IH]; cbn; [tauto |].
  intros [Hs Hk]. apply IH, Hk, Hs.
Qed.

(** ** Autoplay *)

Lemma speech_alone_success (s : Page) (data : JsValue) :
  truthy (currentTranslation s) = true -> truthy (field "success" data) = true ->
  let s' := snd (run_alone (server_says data) (generateSpeech s)) in
  In (mkTimer (next_timer s) (now s + 100) CbAutoPlay) (timers s') /\
  now s' = now s /\ plays s' = plays s /\
  display (dom s' audioPlayer) = lit "flex".
Proof.
  intros Hcur Hok s'. unfold s'. rewrite (speech_accepted s Hcur).
  destruct data as [| | b | str | fs]; try discriminate Hok.
  unfold field, get_prop in Hok.
  unfold try_finally, try_catch, speech_try, bind, fetch, bind, modify, gets, await.
  cbn [run_alone finally_res catch_res bind_res server_says json_body].
  unfold speech_on_data, bind, prop, get_prop. cbn [bind_res ret].
  rewrite Hok. cbn [bind_res modify gets ret catch_res finally_res run_alone snd].
  unfold speech_finally, bind, modify. cbn [bind_res snd].
  split; [| split; [reflexivity | split; [| reflexivity]]].
  - cbn. apply in_app_iff. left. apply in_app_iff. right. left. reflexivity.
  - unfold plays. cbn. rewrite filter_app. cbn. rewrite app_nil_r. reflexivity.
Qed.

(** X8.  In any state the event loop can reach with a translation stored:
    generateSpeech runs to its end on a response with a truthy [success];
    the player is then shown, [play()] has not been called yet, and 100 ms
    later it has been. *)
Theorem autoplay_after_synthesis (s0 : Page) (a : App) (data : JsValue) :
  fresh s0 -> reachable (mkApp s0 []) a ->
  truthy (currentTranslation (page a)) = true ->
  truthy (field "success" data) = true ->
  let a3 := mkApp (snd (run_alone (server_says data) (generateSpeech (page a)))) (tasks a) in
  display (dom (page a3) audioPlayer) = lit "flex" /\
  plays (page a3) = plays (page a) /\
  plays (page a) < plays (page (wait 100 a3)).
Proof.
  intros Hfresh Hreach Hcur Hok a3.
  pose proof (reachable_safe (loaded_safe Hfresh) Hreach) as [Hpage _].
  destruct (speech_alone_success (page a) data Hcur Hok) as (Htimer & Hnow & Hplays & Hdisp).
  split; [exact Hdisp |]. split; [exact Hplays |].
  assert (Hok3 : page_ok (page a3)).
  { unfold a3. cbn [page]. apply run_alone_safe, generateSpeech_preserves, Hpage. }
  change 100%N with (N.succ 99).
  apply wait_fires
    with (Pre := fun s => plays (page a) <= plays s)
         (r := mkTimer (next_timer (page a)) (now (page a) + 100) CbAutoPlay).
  - split; [exact Hok3 | exact Htimer].
  - cbn [due page a3]. rewrite Hnow. lia.
  - intros s n Hs. exact Hs.
  - intros s t Hs. rewrite fired_plays. lia.
  - intros s _ Hs. rewrite fired_plays. cbn [callback]. lia.
  - intros s t Hs. rewrite fired_plays. lia.
  - cbn [page a3]. rewrite Hplays. apply le_n.
Qed.

Lemma autoplay_after_synthesis_witness :
  let audio := JObj [(lit "success", JBool true); (lit "audio_url", JStr (lit "/a.mp3"))] in
  let a0 := mkApp (sample_page []) [] in
  let a := resume_last (server_says bonjour)
             (resume_last (server_says bonjour)
                (handle ECtrlEnter (handle (EInput (lit "Hello")) a0))) in
  let a3 := mkApp (snd (run_alone (server_says audio) (generateSpeech (page a)))) (tasks a) in
  fresh (sample_page []) /\ reachable a0 a /\
  truthy (currentTranslation (page a)) = true /\
  plays (page a) < plays (page (wait 100 a3)).
Proof.
  intros audio a0 a a3.
  split; [exact sample_fresh |]. split; [exact translated_reachable |].
  split; [reflexivity |].
  exact (proj2 (proj2 (@autoplay_after_synthesis (sample_page []) a audio sample_fresh
                         translated_reachable eq_refl eq_refl))).
Defined.

(** X9.  The callback that starts playback calls [play()] once and is
    resumed, on the page [s2], when the promise of [play()] settles.  It
    ends normally and shows nothing: between [s2] and its final page no
    alert, no element and no timer changes, and when the browser has blocked
    playback the only trace is one console message. *)
Theorem autoplay_block_is_silent (s s2 : Page) (x : Settled unit) (o : Outcome unit)
    (s' : Page) :
  resumes (run_callback CbAutoPlay s) [(AUnit x, s2)] o s' ->
  suspended_on (run_callback CbAutoPlay s) = Some (emit AudioPlay s) /\
  o = Normal tt /\
  alerts s' = alerts s2 /\ dom s' = dom s2 /\ timers s' = timers s2 /\
  effects s' = effects s2 ++
    match x with
    | Fulfilled _ => []
    | Rejected _ => [ConsoleLog (lit "Autoplay prevented")]
    end.
Proof.
  cbn [run_callback]. unfold auto_play, bind, modify, try_catch, await.
  cbn [resumes catch_res bind_res answer_of may_settle suspended_on].
  intros (y & E & _ & H). injection E as <-.
  split; [reflexivity |].
  destruct x as [[] | e]; cbn in H; destruct H as [<- <-];
    (split; [reflexivity |]); repeat split.
  symmetry. apply app_nil_r.
Qed.

Lemma autoplay_block_is_silent_witness :
  let s := sample_page (lit "Hello") in
  let env := autoplay_blocked (mkError (lit "NotAllowedError") (lit "blocked")) in
  alerts (snd (run_alone env (run_callback CbAutoPlay s))) = [] /\
  effects (snd (run_alone env (run_callback CbAutoPlay s)))
  = [AudioPlay; ConsoleLog (lit "Autoplay prevented")].
Proof.
  intros s env.
  destruct (@autoplay_block_is_silent s _
              (Rejected (mkError (lit "NotAllowedError") (lit "blocked")))
              (fst (run_alone env (run_callback CbAutoPlay s)))
              (snd (run_alone env (run_callback CbAutoPlay s)))
              (run_alone_resumes env (run_callback CbAutoPlay s)
                 (fun X p => match p with
                             | Json resp => eq_refl
                             | _ => I
                             end))) as (_ & _ & Hal & _ & _ & Heff).
  split; [exact Hal | exact Heff].
Defined.

(** ** The copy label *)





(** ** Clearing while a detection is pending *)

Lemma fired_detect_short d v R s :
  callback d = CbDetectLanguage -> (jslength (trim v) < 3)%N ->
  armed d v R s ->
  quiet v R (fired s d) /\
  textContent (dom (fired s d) detectedLang) = lit "Text too short" /\
  textContent (dom (fired s d) detectedLangCode) = lit "--".
Proof.
  intros Hcb Hlen (Hok & Hv & Hd & HR).
  destruct (fired_frame s d) as (_ & Hin & _).
  apply N.ltb_lt in Hlen.
  split; [| split].
  - split; [apply fired_ok, Hok |]. split; [congruence |]. split.
    + intros u Hu Hucb. apply fired_timers_inv in Hu.
      destruct Hu as [[Hu Hne] | (x & E & _)]; [| congruence].
      pose proof (ok_detect Hok u Hu Hucb) as E1.
      pose proof (ok_detect Hok d Hd Hcb) as E2. congruence.
    + rewrite fired_requests, HR, Hcb, Hv, Hlen. apply app_nil_r.
  - rewrite fired_unfold, Hcb. cbn [run_callback]. rewrite detectLanguage_landing.
    change (input_value (clearTimeout (Some (timer_id d)) s)) with (input_value s).
    rewrite Hv, Hlen. reflexivity.
  - rewrite fired_unfold, Hcb. cbn [run_callback]. rewrite detectLanguage_landing.
    change (input_value (clearTimeout (Some (timer_id d)) s)) with (input_value s).
    rewrite Hv, Hlen. reflexivity.
Qed.

Lemma tick_armed_due_short a d v R :
  callback d = CbDetectLanguage -> (due d <= now (page a) + 1)%N ->
  (jslength (trim v) < 3)%N ->
  armed d v R (page a) ->
  quiet v R (page (tick a)) /\
  textContent (dom (page (tick a)) detectedLang) = lit "Text too short" /\
  textContent (dom (page (tick a)) detectedLangCode) = lit "--".
Proof.
  intros Hcb Hdue Hlen Harmed. rewrite tick_unfold.
  set (s1 := set_now (now (page a) + 1) (page a)).
  assert (H1 : armed d v R s1) by (apply set_now_armed, Harmed).
  assert (Hd : In d (due_now s1)).
  { apply due_now_In. split; [apply H1 | exact Hdue]. }
  destruct (in_split _ _ Hd) as (l1 & l2 & El).
  assert (Hnd : NoDup (map timer_id (due_now s1))).
  { apply filter_timers_distinct. destruct H1 as (Hok & _). apply (ok_timer_ids Hok). }
  assert (Hother : forall t, In t l1 \/ In t l2 ->
                             timer_id t <> timer_id d /\ callback t <> CbDetectLanguage).
  { intros t Ht.
    assert (Hid : timer_id t <> timer_id d).
    { rewrite El in Hnd. exact (NoDup_map_split timer_id l1 l2 d t Hnd Ht). }
    assert (Hin : In t (timers s1)).
    { assert (In t (due_now s1)) as Hd'.
      { rewrite El. apply in_app_iff. destruct Ht; [left | right; right]; assumption. }
      apply due_now_In in Hd'. apply Hd'. }
    apply (armed_others Hcb H1 Hin). intros ->. apply Hid. reflexivity. }
  rewrite El, fold_left_app. cbn [fold_left].
  apply fold_fire_inv
    with (P := fun s => quiet v R s /\
                        textContent (dom s detectedLang) = lit "Text too short" /\
                        textContent (dom s detectedLangCode) = lit "--").
  - rewrite page_fire.
    assert (H2 : armed d v R (page (fold_left fire l1 (mkApp s1 (tasks a))))).
    { apply fold_fire_inv; [exact H1 |].
      intros s t Ht Hs. destruct (Hother t (or_introl Ht)). apply fired_armed; assumption. }
    rewrite pending_In by apply H2.
    apply fired_detect_short; assumption.
  - intros s t Ht (Hq & Hl & Hc). destruct (Hother t (or_intror Ht)) as [_ Htcb].
    split; [apply fired_quiet; assumption |].
    rewrite !(fired_display_kept s t Htcb) by discriminate. auto.
Qed.

Lemma dispatch_input_dom s el : el <> charCounter -> dom (dispatch_input s) el = dom s el.
Proof.
  intro Hel. unfold dispatch_input, on_input_detect.
  set (s1 := on_input_counter s).
  assert (H1 : dom s1 el = dom s el).
  { unfold s1, on_input_counter. destruct el; try reflexivity. contradiction Hel; reflexivity. }
  rewrite <- H1. clearbody s1.
  destruct (detectTimeout s1);
    cbn [clearTimeout];
    match goal with |- context [if ?b then _ else _] => destruct b end; reflexivity.
Qed.

Lemma clearAll_armed d v R s : armed d v R s -> armed d [] R (clearAll s).
Proof.
  intros (Hok & _ & Hd & HR).
  split; [apply clearAll_ok, Hok |]. split; [reflexivity |]. split; [| exact HR].
  cbn. apply in_app_iff. left. exact Hd.
Qed.

Lemma click_enabled b a :
  disabled (dom (page a) b) = false -> handle (EClick b) a = launch (on_click b) a.
Proof. intro H. unfold handle. rewrite H. reflexivity. Qed.

(** X11.  From a freshly loaded page, in any state the event loop can
    reach: the user types a text that arms the detection timer, and clears
    before the 1500 ms are over.  The timer is not cancelled; when it fires,
    the box is empty, so nothing is sent to /detect - and the detection
    display, which clear had reset to "Auto-Detect", reads "Text too
    short". *)
Theorem clear_leaves_detection_timer (s0 : Page) (a : App) (v : jsstring) (p : N) :
  fresh s0 -> reachable (mkApp s0 []) a ->
  (3 <= jslength (trim v))%N -> (p < 1500)%N ->
  disabled (dom (page a) clearBtn) = false ->
  let a3 := handle (EClick clearBtn) (wait p (handle (EInput v) a)) in
  textContent (dom (page a3) detectedLang) = lit "Auto-Detect" /\
  length (detect_timers (page a3)) = 1%nat /\
  requests "/detect" (page (wait (1500 - p) a3)) = requests "/detect" (page a) /\
  input_value (page (wait (1500 - p) a3)) = [] /\
  textContent (dom (page (wait (1500 - p) a3)) detectedLang) = lit "Text too short".
Proof.
  intros Hfresh Hreach Hlen Hp Hen a3.
  pose proof (reachable_safe (loaded_safe Hfresh) Hreach) as Ha.
  destruct (input_event a v (proj1 Ha)) as (Hnow1 & H1).
  apply N.leb_le in Hlen. rewrite Hlen in H1. destruct H1 as [Harmed _].
  set (d := mkTimer (next_timer (page a)) (now (page a) + 1500) CbDetectLanguage) in *.
  set (a1 := handle (EInput v) a) in *.
  assert (Harmed2 : armed d v (requests "/detect" (page a)) (page (wait p a1))).
  { apply wait_armed_early; [reflexivity | cbn [due d]; rewrite Hnow1; lia | exact Harmed]. }
  assert (Hen2 : disabled (dom (page (wait p a1)) clearBtn) = false).
  { apply wait_keeps with (P := fun s => disabled (dom s clearBtn) = false).
    - intros s n Hs. exact Hs.
    - intros s t Hs. rewrite fired_dom_untouched by discriminate. exact Hs.
    - unfold a1. rewrite input_page, dispatch_input_dom by discriminate. exact Hen. }
  assert (Hpage3 : page a3 = clearAll (page (wait p a1))).
  { unfold a3. fold a1. rewrite (click_enabled clearBtn (wait p a1) Hen2). reflexivity. }
  assert (Harmed3 : armed d [] (requests "/detect" (page a)) (page a3)).
  { rewrite Hpage3. apply (clearAll_armed Harmed2). }
  assert (Hnow3 : now (page a3) = (now (page a) + p)%N).
  { rewrite Hpage3. change (now (clearAll (page (wait p a1)))) with (now (page (wait p a1))).
    rewrite wait_now, Hnow1. reflexivity. }
  split; [rewrite Hpage3; reflexivity |]. split.
  - destruct Harmed3 as (Hok3 & _ & Hd3 & _).
    pose proof (page_ok_one_detect_timer Hok3) as Hle.
    assert (Hin : In d (detect_timers (page a3))).
    { apply filter_In. split; [exact Hd3 | reflexivity]. }
    destruct (detect_timers (page a3)) as [| t l]; [destruct Hin |].
    cbn [length] in Hle |- *. lia.
  - replace (1500 - p)%N with (N.succ (1499 - p)) by lia. rewrite wait_succ.
    destruct (@tick_armed_due_short (wait (1499 - p) a3) d []
                (requests "/detect" (page a)) eq_refl)
      as ((_ & Hv & _ & HR) & Hl & _).
    + rewrite wait_now, Hnow3. cbn [due d]. lia.
    + vm_compute. reflexivity.
    + apply wait_armed_early; [reflexivity | | exact Harmed3].
      rewrite Hnow3. cbn [due d]. lia.
    + split; [exact HR |]. split; [exact Hv | exact Hl].
Qed.

Lemma clear_leaves_detection_timer_witness :
  let a := mkApp (sample_page []) [] in
  let a3 := handle (EClick clearBtn) (wait 400 (handle (EInput (lit "Hello")) a)) in
  fresh (sample_page []) /\ reachable a a /\
  requests "/detect" (page (wait 1100 a3)) = [] /\
  textContent (dom (page (wait 1100 a3)) detectedLang) = lit "Text too short".
Proof.
  intros a a3.
  assert (Hr : reachable a a) by constructor.
  split; [exact sample_fresh |]. split; [exact Hr |].
  destruct (@clear_leaves_detection_timer (sample_page []) a (lit "Hello") 400%N
              sample_fresh Hr) as (_ & _ & HR & _ & Hl).
  - vm_compute. discriminate.
  - reflexivity.
  - reflexivity.
  - split; [exact HR | exact Hl].
Defined.

(** ** Loading an example *)

Lemma showAlert_armed msg type d v R s : armed d v R s -> armed d v R (showAlert msg type s).
Proof.
  intros (Hok & Hv & Hd & HR).
  split; [apply showAlert_ok, Hok |]. split; [exact Hv |]. split; [| exact HR].
  cbn. apply in_app_iff. left. exact Hd.
Qed.

Lemma showAlert_quiet msg type v R s : quiet v R s -> quiet v R (showAlert msg type s).
Proof.
  intros (Hok & Hv & Hnone & HR).
  split; [apply showAlert_ok, Hok |]. split; [exact Hv |]. split; [| exact HR].
  intros t Ht. cbn in Ht. apply in_app_iff in Ht.
  destruct Ht as [Ht | [<- | []]]; [apply Hnone, Ht | discriminate].
Qed.

(** X12.  A click on an example button assigns the button's text to the
    box (the empty text when the attribute is missing), which reads it back
    with every CR LF and every other CR turned into LF, and dispatches an
    input event: the counter shows the length of the text as read back and
    the debounce applies as if that text had been typed, so 1500 ms later
    exactly one request carries it, trimmed, to /detect when it then has
    three code units or more, and none goes out otherwise.  The text read
    back has no CR, and is the button's text when that has none. *)
Theorem example_text_is_detected (s0 : Page) (a : App) (text : option jsstring) :
  fresh s0 -> reachable (mkApp s0 []) a ->
  let v := normalize_newlines (to_text (attr_value text)) in
  let a1 := handle (EQuickText text) a in
  ~ In 13%N v /\
  (forall t, text = Some t -> ~ In 13%N t -> v = t) /\
  input_value (page a1) = v /\
  textContent (dom (page a1) charCounter) = decimal (jslength v) /\
  (forall n, (n < 1500)%N ->
             requests "/detect" (page (wait n a1)) = requests "/detect" (page a)) /\
  requests "/detect" (page (wait 1500 a1)) =
  requests "/detect" (page a) ++
  (if (3 <=? jslength (trim v))%N then [detect_request (trim v)] else []).
Proof.
  intros Hfresh Hreach v a1.
  pose proof (reachable_safe (loaded_safe Hfresh) Hreach) as Ha.
  assert (Hpage : page a1
                  = showAlert (lit "Example text loaded") "info"
                      (page (handle (EInput v) a))) by reflexivity.
  destruct (input_event a v (proj1 Ha)) as (Hnow & H).
  assert (Hnow1 : now (page a1) = now (page a)) by (rewrite Hpage; exact Hnow).
  assert (Hin : input_value (page (handle (EInput v) a)) = v).
  { destruct (3 <=? jslength (trim v))%N; destruct H as [(_ & Hv & _) _]; exact Hv. }
  split; [apply normalize_newlines_no_cr |].
  split; [intros t -> Ht; apply normalize_newlines_plain, Ht |].
  split; [rewrite Hpage; exact Hin |]. split.
  - rewrite Hpage, input_page.
    change (dom (showAlert (lit "Example text loaded") "info"
                   (dispatch_input (assign inputText (set_value v) (page a)))) charCounter)
      with (dom (dispatch_input (assign inputText (set_value v) (page a))) charCounter).
    unfold dispatch_input, on_input_detect.
    set (s1 := on_input_counter (assign inputText (set_value v) (page a))).
    assert (H1 : textContent (dom s1 charCounter) = decimal (jslength v)) by reflexivity.
    rewrite <- H1. clearbody s1.
    destruct (detectTimeout s1); cbn [clearTimeout];
      match goal with |- context [if ?b then _ else _] => destruct b end; reflexivity.
  - destruct (3 <=? jslength (trim v))%N eqn:Elen.
    + destruct H as [H _]. apply (showAlert_armed (lit "Example text loaded") "info") in H.
      rewrite <- Hpage in H. split.
      * intros n Hn.
        apply wait_armed_early with (n := n) in H; [apply H | reflexivity |].
        cbn [due]. rewrite Hnow1. lia.
      * apply N.leb_le in Elen.
        apply wait_armed_due with (n := 1499%N) in H; [apply H | reflexivity | | exact Elen].
        cbn [due]. rewrite Hnow1. lia.
    + destruct H as [H _]. apply (showAlert_quiet (lit "Example text loaded") "info") in H.
      rewrite <- Hpage in H. split.
      * intros n _. apply wait_quiet with (n := n) in H. apply H.
      * apply wait_quiet with (n := 1500%N) in H. rewrite app_nil_r. apply H.
Qed.

(** The example " Good" CR LF "morning" CR: the box reads 13 code units
    with two line feeds, and "Good" LF "morning" is what is sent. *)
Lemma example_text_is_detected_witness :
  let a := mkApp (sample_page []) [] in
  let text := lit " Good" ++ [13%N; 10%N] ++ lit "morning" ++ [13%N] in
  let a1 := handle (EQuickText (Some text)) a in
  fresh (sample_page []) /\ reachable a a /\
  input_value (page a1) = lit " Good" ++ [10%N] ++ lit "morning" ++ [10%N] /\
  textContent (dom (page a1) charCounter) = lit "14" /\
  requests "/detect" (page (wait 1500 a1))
  = [detect_request (lit "Good" ++ [10%N] ++ lit "morning")].
Proof.
  intros a text a1.
  assert (Hr : reachable a a) by constructor.
  split; [exact sample_fresh |]. split; [exact Hr |].
  destruct (@example_text_is_detected (sample_page []) a (Some text) sample_fresh Hr)
    as (_ & _ & Hv & Hc & _ & Hreq).
  split; [exact Hv |]. split; [exact Hc | exact Hreq].
Defined.

(** ** The busy state and the keyboard shortcut *)

Lemma translate_launched (a : App) :
  translate_accepts (page a) ->
  exists k,
    handle ECtrlEnter a =
    mkApp (emit (Fetched (lit "/translate")
                   (translate_request (trim (input_value (page a)))
                      (select_value (targetLang (page a)))))
             (assign translateBtn (set_innerHTML translate_busy_label)
                (assign translateBtn (set_disabled true) (page a))))
          (tasks a ++ [mkTask (Fetch (lit "/translate")
                                 (translate_request (trim (input_value (page a)))
                                    (select_value (targetLang (page a))))) k]).
Proof.
  intro Hacc. unfold handle, launch. rewrite (translate_accepted Hacc).
  eexists. reflexivity.
Qed.

(** X13.  While a translation is in flight the translate control is
    disabled, so a click on it does nothing; Ctrl+Enter in the text box
    calls translate all the same, and a second request for the same text
    leaves while the first is still pending. *)
Theorem busy_control_does_not_stop_shortcut (a : App) :
  translate_accepts (page a) ->
  let req := Fetched (lit "/translate")
               (translate_request (trim (input_value (page a)))
                  (select_value (targetLang (page a)))) in
  let a1 := handle ECtrlEnter a in
  let a2 := handle ECtrlEnter a1 in
  disabled (dom (page a1) translateBtn) = true /\
  handle (EClick translateBtn) a1 = a1 /\
  requests "/translate" (page a2) = requests "/translate" (page a) ++ [req; req] /\
  length (tasks a2) = 2 + length (tasks a).
Proof.
  intros Hacc req a1 a2.
  destruct (translate_launched a Hacc) as (k1 & E1).
  assert (Hacc1 : translate_accepts (page a1)).
  { unfold a1. rewrite E1. exact Hacc. }
  destruct (translate_launched a1 Hacc1) as (k2 & E2).
  assert (Hbusy : disabled (dom (page a1) translateBtn) = true).
  { unfold a1. rewrite E1. reflexivity. }
  split; [exact Hbusy |]. split; [| split].
  - unfold handle. rewrite Hbusy. reflexivity.
  - unfold a2. rewrite E2. cbn [page]. rewrite requests_emit.
    change (requests "/translate"
              (assign translateBtn (set_innerHTML translate_busy_label)
                 (assign translateBtn (set_disabled true) (page a1))))
      with (requests "/translate" (page a1)).
    unfold a1 at 1. rewrite E1. cbn [page]. rewrite requests_emit.
    change (requests "/translate"
              (assign translateBtn (set_innerHTML translate_busy_label)
                 (assign translateBtn (set_disabled true) (page a))))
      with (requests "/translate" (page a)).
    rewrite <- app_assoc.
    assert (Hsame : input_value (page a1) = input_value (page a) /\
                    targetLang (page a1) = targetLang (page a)).
    { unfold a1. rewrite E1. split; reflexivity. }
    destruct Hsame as [-> ->]. reflexivity.
  - unfold a2. rewrite E2. cbn [tasks]. rewrite length_app.
    unfold a1. rewrite E1. cbn [tasks]. rewrite length_app. cbn. lia.
Qed.

Lemma busy_control_does_not_stop_shortcut_witness :
  let a := mkApp (sample_page (lit "Hello")) [] in
  let req := Fetched (lit "/translate") (translate_request (lit "Hello") (lit "fr")) in
  translate_accepts (page a) /\
  requests "/translate" (page (handle ECtrlEnter (handle ECtrlEnter a))) = [req; req].
Proof.
  intros a req. split; [exact sample_hello_accepted |].
  exact (proj1 (proj2 (proj2 (@busy_control_does_not_stop_shortcut a sample_hello_accepted)))).
Defined.

(** ** The target language *)

Lemma jsstring_eqb_eq (x y : jsstring) : jsstring_eqb x y = true <-> x = y.
Proof.
  revert y. induction x as [| c x IH]; intros [| d y]; cbn; split; try reflexivity;
    try discriminate.
  - intro H. apply andb_true_iff in H. destruct H as [Hc Hx].
    apply N.eqb_eq in Hc. apply IH in Hx. congruence.
  - intros [= -> ->]. apply andb_true_iff. split; [apply N.eqb_refl | apply IH; reflexivity].
Qed.

(** [find_option] returns the first position whose value is the one sought,
    and nothing exactly when no option has it. *)
Lemma find_option_found v opts i0 i :
  find_option v opts i0 = Some i ->
  exists j text, i = i0 + j /\ nth_error opts j = Some (v, text) /\
                 forall j' p, j' < j -> nth_error opts j' = Some p -> fst p <> v.
Proof.
  revert i0. induction opts as [| [v' text'] opts IH]; intros i0; cbn [find_option];
    [discriminate |].
  destruct (jsstring_eqb v v') eqn:E.
  - intros [= <-]. apply jsstring_eqb_eq in E. subst v'.
    exists 0, text'. split; [lia |]. split; [reflexivity |]. intros j' p Hj. lia.
  - intro H. destruct (IH (S i0) H) as (j & text & Ei & Hnth & Hfirst).
    exists (S j), text. split; [lia |]. split; [exact Hnth |].
    intros [| j'] p Hj Hp.
    + cbn in Hp. injection Hp as <-. cbn. intros ->.
      assert (jsstring_eqb v v = true) by (apply jsstring_eqb_eq; reflexivity). congruence.
    + apply (Hfirst j' p); [lia | exact Hp].
Qed.

Lemma find_option_none v opts i0 :
  find_option v opts i0 = None <-> ~ In v (map fst opts).
Proof.
  revert i0. induction opts as [| [v' text'] opts IH]; intros i0; cbn [find_option map In fst].
  - tauto.
  - destruct (jsstring_eqb v v') eqn:E.
    + apply jsstring_eqb_eq in E. subst. split; [discriminate | intro H; exfalso; auto].
    + rewrite IH. split.
      * intros Hn [-> | Hin]; [| exact (Hn Hin)].
        assert (jsstring_eqb v v = true) by (apply jsstring_eqb_eq; reflexivity). congruence.
      * intros Hn Hin. apply Hn. right. exact Hin.
Qed.

(** X14.  A quick-language button whose code is among the dropdown's
    options selects the first option with that code: the dropdown's value
    and the code display then read the code, the name display reads the
    option's text up to its first parenthesis, trimmed.  Nothing is sent and
    the stored translation stays. *)
Theorem quick_language_selects (s : Page) (lang : jsstring) :
  In lang (map fst (options (targetLang s))) ->
  exists s' i text,
    on_quick_lang (Some lang) s = Done (Normal tt) s' /\
    selectedIndex (targetLang s') = Some i /\
    nth_error (options (targetLang s)) i = Some (lang, text) /\
    (forall j p, j < i -> nth_error (options (targetLang s)) j = Some p -> fst p <> lang) /\
    select_value (targetLang s') = lang /\
    textContent (dom s' targetLangCode) = lang /\
    textContent (dom s' targetLangName) = trim (split_first 40 text) /\
    effects s' = effects s /\
    currentTranslation s' = currentTranslation s.
Proof.
  intro Hin.
  destruct (find_option lang (options (targetLang s)) 0) as [i |] eqn:Efind.
  - destruct (find_option_found _ _ _ Efind) as (j & text & -> & Hnth & Hfirst).
    cbn [Nat.add] in *.
    unfold on_quick_lang, updateTargetLanguage, bind, modify, gets. cbn [bind_res].
    unfold selected_option, select_value, selected_option, select_set_value.
    cbn [attr_value ToString targetLang with_targetLang selectedIndex options].
    rewrite Efind, Hnth. cbn [bind_res].
    cbn [targetLang with_targetLang selectedIndex options assign with_dom].
    rewrite Efind, Hnth.
    eexists _, j, text. split; [reflexivity |].
    split; [cbn; exact Efind |]. split; [exact Hnth |]. split; [exact Hfirst |].
    split; [cbn; rewrite Efind, Hnth; reflexivity |]. repeat split.
  - apply find_option_none in Efind. contradiction.
Qed.

Lemma quick_language_selects_witness :
  let s := sample_page (lit "Hello") in
  In (lit "de") (map fst (options (targetLang s))) /\
  exists s', on_quick_lang (Some (lit "de")) s = Done (Normal tt) s' /\
             select_value (targetLang s') = lit "de" /\
             textContent (dom s' targetLangName) = lit "German".
Proof.
  intro s.
  assert (Hin : In (lit "de") (map fst (options (targetLang s)))) by (right; left; reflexivity).
  split; [exact Hin |].
  destruct (@quick_language_selects s (lit "de") Hin)
    as (s' & i & text & E & Hi & Hnth & Hfirst & Hval & _ & Hname & _).
  exists s'. split; [exact E |]. split; [exact Hval |].
  rewrite Hname.
  destruct i as [| [| [| i]]]; cbn in Hnth; try discriminate Hnth.
  - injection Hnth as <-. reflexivity.
  - destruct i; discriminate Hnth.
Defined.

Lemma translate_suspends (s : Page) :
  translate_accepts s ->
  exists s1, suspended_on (translate s) = Some s1 /\
             effects s1 = effects s ++
               [Fetched (lit "/translate")
                  (translate_request (trim (input_value s)) (select_value (targetLang s)))].
Proof.
  intro Hacc. rewrite (translate_accepted Hacc). eexists. split; reflexivity.
Qed.

(** X15.  A quick-language button or card whose code is not among the
    options (a missing attribute counts as "null") leaves the dropdown with
    nothing selected and an empty value; updateTargetLanguage then throws,
    so the name and code displays keep what they showed; and a translation
    started next sends a body whose [target_lang] is the empty string. *)
Theorem unknown_language_unselects (s : Page) (lang : option jsstring) :
  ~ In (ToString (attr_value lang)) (map fst (options (targetLang s))) ->
  exists e s',
    on_quick_lang lang s = Done (Throw e) s' /\
    (forall name, on_lang_card lang name s = Done (Throw e) s') /\
    selectedIndex (targetLang s') = None /\
    select_value (targetLang s') = [] /\
    dom s' = dom s /\ effects s' = effects s /\ alerts s' = alerts s /\
    (translate_accepts s ->
     exists s1, suspended_on (translate s') = Some s1 /\
                effects s1 = effects s ++
                  [Fetched (lit "/translate")
                     (JObj [(lit "text", JStr (trim (input_value s)));
                            (lit "target_lang", JStr [])])]).
Proof.
  intro Hnot. apply (find_option_none _ _ 0) in Hnot.
  unfold on_quick_lang, updateTargetLanguage, bind, modify, gets. cbn [bind_res].
  unfold selected_option, select_set_value.
  cbn [targetLang with_targetLang selectedIndex options].
  rewrite Hnot. cbn [bind_res throw].
  eexists _, _. split; [reflexivity |].
  split.
  { intro name. unfold on_lang_card, updateTargetLanguage, bind, modify, gets.
    cbn [bind_res]. unfold selected_option, select_set_value.
    cbn [targetLang with_targetLang selectedIndex options].
    rewrite Hnot. reflexivity. }
  split; [cbn; exact Hnot |].
  assert (Hval : select_value
                   (targetLang
                      (with_targetLang
                         (fun sel => mkSelect (options sel)
                                       (find_option (ToString (attr_value lang))
                                          (options sel) 0)) s)) = []).
  { unfold select_value, selected_option. cbn. rewrite Hnot. reflexivity. }
  split; [exact Hval |]. split; [reflexivity |]. split; [reflexivity |].
  split; [reflexivity |].
  intro Hacc.
  set (s' := with_targetLang _ s) in *.
  assert (Hacc' : translate_accepts s') by exact Hacc.
  destruct (translate_suspends Hacc') as (s1 & Hs1 & Heff).
  exists s1. split; [exact Hs1 |]. rewrite Heff, Hval. reflexivity.
Qed.

Lemma unknown_language_unselects_witness :
  let s := sample_page (lit "Hello") in
  ~ In (ToString (attr_value None)) (map fst (options (targetLang s))) /\
  translate_accepts s /\
  exists e s' s1,
    on_quick_lang None s = Done (Throw e) s' /\
    select_value (targetLang s') = [] /\
    suspended_on (translate s') = Some s1 /\
    effects s1 = [Fetched (lit "/translate")
                    (JObj [(lit "text", JStr (lit "Hello")); (lit "target_lang", JStr [])])].
Proof.
  intro s.
  assert (Hnot : ~ In (ToString (attr_value None)) (map fst (options (targetLang s)))).
  { cbn. intros [H | [H | [H | []]]]; discriminate H. }
  split; [exact Hnot |]. split; [exact sample_hello_accepted |].
  destruct (@unknown_language_unselects s None Hnot)
    as (e & s' & E & _ & _ & Hval & _ & _ & _ & Hsend).
  destruct (Hsend sample_hello_accepted) as (s1 & Hs1 & Heff).
  exists e, s', s1. split; [exact E |]. split; [exact Hval |]. split; [exact Hs1 | exact Heff].
Defined.




(** ** The character counter *)

Lemma sync_same s s' :
  dom s' charCounter = dom s charCounter -> dom s' inputText = dom s inputText ->
  counter_in_sync s -> counter_in_sync s'.
Proof. unfold counter_in_sync, input_value. intros -> ->. exact (fun H => H). Qed.

Lemma on_input_detect_dom s : dom (on_input_detect s) = dom s.
Proof.
  unfold on_input_detect. destruct (detectTimeout s); cbn [clearTimeout];
    match goal with |- context [if ?b then _ else _] => destruct b end; reflexivity.
Qed.

(** An input event puts the counter right, whatever it showed. *)
Lemma dispatch_input_sync s : counter_in_sync (dispatch_input s).
Proof.
  unfold counter_in_sync, input_value, dispatch_input.
  rewrite on_input_detect_dom. reflexivity.
Qed.

Lemma clearAll_sync s : counter_in_sync (clearAll s).
Proof. reflexivity. Qed.

Lemma on_quick_text_sync text s : counter_in_sync (on_quick_text text s).
Proof.
  unfold on_quick_text.
  apply sync_same
    with (s := dispatch_input
                 (assign inputText
                    (set_value (normalize_newlines (to_text (attr_value text)))) s));
    [reflexivity | reflexivity | apply dispatch_input_sync].
Qed.

Lemma enable_download_sync inserted s :
  counter_in_sync s -> counter_in_sync (enable_download inserted s).
Proof.
  unfold enable_download. destruct (_ || _); [| exact (fun H => H)].
  apply sync_same; reflexivity.
Qed.

Lemma set_audio_status_sync text s :
  counter_in_sync s -> counter_in_sync (set_audio_status text s).
Proof.
  unfold set_audio_status. destruct (own_element_by_id _ _ _); [| exact (fun H => H)].
  apply sync_same; reflexivity.
Qed.

Lemma call_showAlert_sync msg type : preserves counter_in_sync (call_showAlert msg type).
Proof.
  intros s H. unfold call_showAlert.
  destruct (close_button_found msg s); cbn; apply (@sync_same s); auto.
Qed.

Lemma alert_dismiss_sync x s : counter_in_sync s -> counter_in_sync (alert_dismiss x s).
Proof.
  destruct (alert_dismiss_cases x s) as [[_ ->] | [_ ->]]; [exact (fun H => H) |].
  apply sync_same; reflexivity.
Qed.

Ltac sync_solve :=
  repeat page_step;
  try (match goal with
       | H : counter_in_sync ?s |- counter_in_sync _ =>
           first [ exact (alert_dismiss_sync _ H)
                 | exact (enable_download_sync _ H)
                 | exact (set_audio_status_sync _ H)
                 | apply (@sync_same s); [reflexivity | reflexivity | exact H] ]
       end).

Lemma fetch_sync url body : preserves counter_in_sync (fetch url body).
Proof. unfold fetch. sync_solve. Qed.

Lemma console_error_sync label e : preserves counter_in_sync (console_error label e).
Proof. unfold console_error. sync_solve. Qed.

Lemma updateTargetLanguage_sync : preserves counter_in_sync updateTargetLanguage.
Proof. unfold updateTargetLanguage. sync_solve. Qed.

Lemma detectLanguage_sync : preserves counter_in_sync detectLanguage.
Proof.
  unfold detectLanguage, detect_try, detect_catch, detect_on_data.
  pose proof fetch_sync. pose proof console_error_sync. pose proof call_showAlert_sync.
  sync_solve.
Qed.

Lemma translate_sync : preserves counter_in_sync translate.
Proof.
  unfold translate, translate_try, translate_catch, translate_finally, translate_on_data.
  pose proof fetch_sync. pose proof console_error_sync. pose proof call_showAlert_sync.
  sync_solve.
Qed.

Lemma generateSpeech_sync : preserves counter_in_sync generateSpeech.
Proof.
  unfold generateSpeech, speech_try, speech_catch, speech_finally, speech_on_data.
  pose proof fetch_sync. pose proof console_error_sync. pose proof call_showAlert_sync.
  sync_solve.
Qed.

Lemma copyTranslation_sync : preserves counter_in_sync copyTranslation.
Proof.
  unfold copyTranslation, copy_then, copy_catch.
  pose proof console_error_sync. sync_solve.
Qed.

Lemma on_click_sync b : preserves counter_in_sync (on_click b).
Proof.
  destruct b; cbn [on_click];
    first [ exact translate_sync | exact detectLanguage_sync
          | exact generateSpeech_sync | exact copyTranslation_sync
          | apply preserves_modify; intros; apply clearAll_sync
          | apply preserves_ret ].
Qed.

Lemma run_callback_sync cb : preserves counter_in_sync (run_callback cb).
Proof.
  destruct cb; cbn [run_callback].
  - exact detectLanguage_sync.
  - unfold auto_play. sync_solve.
  - sync_solve.
  - sync_solve.
  - sync_solve.
Qed.

Lemma handle_sync e a : app_safe counter_in_sync a -> app_safe counter_in_sync (handle e a).
Proof.
  intro H. destruct e; cbn [handle].
  - apply launch_safe; [| exact H].
    apply preserves_modify. intros. apply dispatch_input_sync.
  - apply launch_safe; [exact translate_sync | exact H].
  - destruct (disabled (dom (page a) b)); [exact H |].
    apply launch_safe; [apply on_click_sync | exact H].
  - apply launch_safe; [| exact H]. unfold on_quick_lang.
    pose proof updateTargetLanguage_sync. sync_solve.
  - apply launch_safe; [| exact H]. unfold on_lang_card.
    pose proof updateTargetLanguage_sync. pose proof call_showAlert_sync. sync_solve.
  - apply launch_safe; [| exact H].
    apply preserves_modify. intros. apply on_quick_text_sync.
  - destruct (i <? length (options (targetLang (page a))))%nat; [| exact H].
    apply launch_safe; [| exact H].
    pose proof updateTargetLanguage_sync. sync_solve.
  - destruct (in_document a0 (page a)); [| exact H].
    apply launch_safe; [| exact H]. sync_solve.
  - apply launch_safe; [| exact H]. unfold on_download_click. sync_solve.
  - apply launch_safe; [sync_solve | exact H].
  - apply launch_safe; [sync_solve | exact H].
Qed.

Lemma tick_sync a : app_safe counter_in_sync a -> app_safe counter_in_sync (tick a).
Proof.
  intros [Hp Hts]. unfold tick.
  assert (Hfold : forall l b, app_safe counter_in_sync b ->
                              app_safe counter_in_sync (fold_left fire l b)).
  { induction l as [| t l IH]; intros b Hb; cbn [fold_left]; [exact Hb |].
    apply IH. unfold fire. destruct (pending (timer_id t) (page b)); [| exact Hb].
    apply launch_safe; [| exact Hb].
    pose proof (run_callback_sync (callback t)). sync_solve. }
  apply Hfold. split; [exact Hp | exact Hts].
Qed.

Lemma step_sync a b : step a b -> app_safe counter_in_sync a -> app_safe counter_in_sync b.
Proof.
  intros Hstep H. destruct Hstep as [e a | a | s before X p k after r Hr].
  - apply handle_sync, H.
  - apply tick_sync, H.
  - destruct H as [Hp Hts]. cbn in Hp, Hts.
    apply Forall_app in Hts. destruct Hts as [Hb Hta].
    inversion Hta as [| ? ? Hk Ha]; subst.
    apply absorb_safe; [apply Hk, Hp | apply Forall_app; split; assumption].
Qed.

(** X17.  Every input event, typed or dispatched by an example button,
    sets the counter to the length of the text in the box, and clear sets
    both to nothing; no other listener, callback or continuation touches
    either.  So once the counter shows the length of the text it does so in
    every state the event loop reaches. *)
Theorem counter_stays_in_sync (s0 : Page) (a : App) :
  counter_in_sync s0 -> reachable (mkApp s0 []) a ->
  counter_in_sync (page a) /\
  (forall v, textContent (dom (page (handle (EInput v) a)) charCounter)
             = decimal (jslength v)) /\
  (disabled (dom (page a) clearBtn) = false ->
   textContent (dom (page (handle (EClick clearBtn) a)) charCounter) = lit "0" /\
   input_value (page (handle (EClick clearBtn) a)) = []).
Proof.
  intros H0 Hreach.
  assert (Hsafe : app_safe counter_in_sync a).
  { induction Hreach as [| a b _ IH Hstep].
    - split; [exact H0 | constructor].
    - exact (step_sync Hstep IH). }
  split; [apply Hsafe |]. split.
  - intro v. rewrite input_page.
    pose proof (dispatch_input_sync (assign inputText (set_value v) (page a))) as Hs.
    unfold counter_in_sync in Hs. rewrite Hs. f_equal. f_equal.
    unfold input_value, dispatch_input. rewrite on_input_detect_dom. reflexivity.
  - intro Hen. rewrite (click_enabled clearBtn a Hen). split; reflexivity.
Qed.

Lemma counter_stays_in_sync_witness :
  let s0 := on_input_counter (sample_page (lit "Hello")) in
  let a := wait 10 (handle (EInput (lit "Hello world")) (mkApp s0 [])) in
  counter_in_sync s0 /\ reachable (mkApp s0 []) a /\
  textContent (dom (page a) charCounter) = lit "11".
Proof.
  intros s0 a.
  assert (H0 : counter_in_sync s0) by reflexivity.
  assert (Hwait : forall n b, reachable (mkApp s0 []) b -> reachable (mkApp s0 []) (wait n b)).
  { intros n b Hb. induction n as [| n IH] using N.peano_ind; [exact Hb |].
    rewrite wait_succ. apply reach_step with (a := wait n b); [exact IH | apply step_tick]. }
  assert (Hr : reachable (mkApp s0 []) a).
  { apply Hwait. apply reach_step with (a := mkApp s0 []); [apply reach_init | apply step_event]. }
  split; [exact H0 |]. split; [exact Hr |].
  pose proof (proj1 (@counter_stays_in_sync s0 a H0 Hr)) as Hs.
  unfold counter_in_sync in Hs. rewrite Hs. vm_compute. reflexivity.
Defined.

(** ** The download link *)

(** X18.  A click on the download link names the file after the value the
    dropdown has at that moment and the clock: after the user has picked
    option [j], the name carries that option's value, whatever language the
    audio was made for; the link's target is not touched. *)
Theorem download_name_reads_dropdown (s : Page) (ts : list Task) (j : nat)
    (v name : jsstring) (date_now : N) :
  nth_error (options (targetLang s)) j = Some (v, name) ->
  let a := handle (EDownloadClick date_now) (handle (ESelectTarget j) (mkApp s ts)) in
  download (dom (page a) downloadAudio)
  = lit "translation_" ++ v ++ lit "_" ++ decimal date_now ++ lit ".mp3" /\
  href (dom (page a) downloadAudio) = href (dom s downloadAudio) /\
  src (dom (page a) audioElement) = src (dom s audioElement) /\
  effects (page a) = effects s.
Proof.
  intros Hopt a. unfold a. rewrite (@select_target_page s ts j v name Hopt).
  cbn [handle]. unfold launch, modify. cbn [page absorb].
  unfold on_download_click.
  assert (Hval : select_value
                   (targetLang
                      (assign targetLangCode (set_textContent v)
                         (assign targetLangName (set_textContent (trim (split_first 40 name)))
                            (with_targetLang
                               (fun sel => mkSelect (options sel) (Some j)) s)))) = v).
  { unfold select_value, selected_option. cbn. rewrite Hopt. reflexivity. }
  rewrite Hval. repeat split.
Qed.

Lemma download_name_reads_dropdown_witness :
  let s := sample_page (lit "Hello") in
  let a := handle (EDownloadClick 1700000000000) (handle (ESelectTarget 1) (mkApp s [])) in
  nth_error (options (targetLang s)) 1 = Some (lit "de", lit "German (de)") /\
  download (dom (page a) downloadAudio) = lit "translation_de_1700000000000.mp3".
Proof.
  intros s a. split; [reflexivity |].
  exact (proj1 (@download_name_reads_dropdown s [] 1 (lit "de") (lit "German (de)")
                  1700000000000%N eq_refl)).
Defined.
